(** * Shallow embedding of the SQLite research state store
    ([scripts/state_manager.py], class [StateManager]) and of the fact value
    parser ([scripts/fact_ledger.py], [FactLedger.parse_value]).

    Modelling conventions:
    - every table is a list of rows in insertion (rowid) order;
    - SQL [REAL] values and Python floats are modelled as exact rationals [Q]
      where only comparisons of stored values matter, and as binary64 floats
      (the primitive [float] of the Standard Library, whose operations round
      to nearest, ties to even, as CPython's do) where a result depends on
      the rounding of float arithmetic: the [value_numeric] column of facts,
      the severity of conflicts and the average of [get_branch_health];
    - [CURRENT_TIMESTAMP] is the store field [now] (second resolution, so
      several rows may share a timestamp);
    - [conn.total_changes] is the connection-wide counter [total_changes],
      incremented by every row an INSERT, UPDATE or DELETE touches;
    - [ORDER BY] and Python's [sorted] are a stable insertion sort; rows that
      tie on every sort key keep their rowid order. *)

From Stdlib Require Import String Ascii List Bool ZArith QArith Lia.
From Stdlib Require Import Floats.
From Stdlib Require Import Sorting.Sorted Sorting.Permutation.
Import ListNotations.

Open Scope Z_scope.

(** ** Generic helpers *)

(** Stable insertion sort for a boolean "less or equal" [le]. *)
Fixpoint insert_by {A} (le : A -> A -> bool) (x : A) (l : list A) : list A :=
  match l with
  | [] => [x]
  | y :: t => if le x y then x :: y :: t else y :: insert_by le x t
  end.

Fixpoint sort_by {A} (le : A -> A -> bool) (l : list A) : list A :=
  match l with
  | [] => []
  | x :: t => insert_by le x (sort_by le t)
  end.

(** SQL [LIMIT n]: a negative limit means no limit. *)
Definition sql_limit {A} (n : Z) (l : list A) : list A :=
  if n <? 0 then l else firstn (Z.to_nat n) l.

(** Python [xs[s:]] for an integer start [s]. *)
Definition py_slice_from {A} (l : list A) (s : Z) : list A :=
  let len := Z.of_nat (length l) in
  let s' := if s <? 0 then Z.max 0 (s + len) else Z.min s len in
  skipn (Z.to_nat s') l.

Definition py_sum (l : list Q) : Q := fold_right Qplus 0%Q l.

(** Python [float(x)] of an exact rational [x] (the decimal value of a digit
    string, a JSON number, an exactly stored SQL REAL): the nearest binary64
    value, ties to even, [inf] beyond the largest finite double. The
    significand [m] is computed at the precision of 53 bits, or at the
    exponent [-1074] of the subnormals. *)
Definition Q2F (q : Q) : float :=
  let n := Z.abs (Qnum q) in
  let d := Zpos (Qden q) in
  let mag :=
    if n =? 0 then PrimFloat.zero
    else
      let e0 := Z.log2 n - Z.log2 d - 52 in
      let scaled e := if 0 <=? e then (n, d * 2 ^ e) else (n * 2 ^ (- e), d) in
      let e1 := let '(a, b) := scaled e0 in if a / b <? 2 ^ 52 then e0 - 1 else e0 in
      let e2 := Z.max e1 (-1074) in
      let '(a, b) := scaled e2 in
      let m := a / b in
      let r := a mod b in
      let m' := if (2 * r >? b) || ((2 * r =? b) && Z.odd m) then m + 1 else m in
      let '(m'', e3) := if m' =? 2 ^ 53 then (2 ^ 52, e2 + 1) else (m', e2) in
      if 971 <? e3 then PrimFloat.infinity
      else Z.ldexp (of_uint63 (Uint63.of_Z m'')) e3 in
  if Qnum q <? 0 then (- mag)%float else mag.

(** The exact value of a finite double ([None] for [inf] and [nan]). *)
Definition F2Q (f : float) : option Q :=
  match Prim2SF f with
  | S754_zero _ => Some 0%Q
  | S754_finite s m e =>
      let v := if 0 <=? e then inject_Z (Zpos m * 2 ^ e)
               else (Zpos m # Z.to_pos (2 ^ (- e)))%Q in
      Some (if s then Qopp v else v)
  | _ => None
  end.

(** Python exceptions that the modelled code can raise. *)
Inductive exn :=
| IntegrityError
| TypeError
| RecursionError
| ZeroDivisionError.

(** ** Rows of the tables *)

(** JSON metadata column [meta]: [None] is SQL NULL, otherwise the decoded
    dictionary as an association list. *)
Definition json_dict := list (string * string).

Record node := mkNode {
  n_id : string;
  n_parent_id : option string;
  n_content : string;
  n_score : Q;
  n_status : string;
  n_depth : Z;
  n_created_at : nat;
  n_updated_at : nat;
  n_meta : option json_dict
}.

Record session := mkSession {
  s_session_id : string;
  s_topic : string;
  s_status : string;
  s_created_at : nat;
  s_meta : option json_dict
}.

Record fact := mkFact {
  f_id : nat;
  f_session_id : string;
  f_entity : string;
  f_attribute : string;
  f_value : string;
  f_value_type : string;
  f_value_numeric : option float;
  f_unit : option string;
  f_created_at : nat
}.

Record entity := mkEntity {
  e_id : nat;
  e_session_id : string;
  e_name : string;
  e_entity_type : option string;
  e_description : option string
}.

Record alias_row := mkAlias {
  al_id : nat;
  al_canonical_name : string;
  al_alias : string
}.

Record cooc_row := mkCooc {
  co_id : nat;
  co_entity_a_id : nat;
  co_entity_b_id : nat;
  co_count : nat;
  co_context_snippets : list string
}.

(** The whole database as seen through one thread-local connection. *)
Record db := mkDb {
  nodes : list node;
  sessions : list session;
  facts : list fact;
  entities : list entity;
  aliases : list alias_row;
  cooccurrences : list cooc_row;
  seq_facts : nat;           (* sqlite_sequence of [facts] *)
  seq_entities : nat;        (* sqlite_sequence of [entities] *)
  seq_aliases : nat;         (* sqlite_sequence of [entity_aliases] *)
  seq_cooc : nat;            (* sqlite_sequence of [entity_cooccurrence] *)
  now : nat;                 (* CURRENT_TIMESTAMP *)
  total_changes : nat        (* conn.total_changes *)
}.

Definition set_nodes (d : db) (ns : list node) (changed : nat) : db :=
  mkDb ns d.(sessions) d.(facts) d.(entities) d.(aliases) d.(cooccurrences)
       d.(seq_facts) d.(seq_entities) d.(seq_aliases) d.(seq_cooc) d.(now)
       (d.(total_changes) + changed).

Definition set_sessions (d : db) (ss : list session) (changed : nat) : db :=
  mkDb d.(nodes) ss d.(facts) d.(entities) d.(aliases) d.(cooccurrences)
       d.(seq_facts) d.(seq_entities) d.(seq_aliases) d.(seq_cooc) d.(now)
       (d.(total_changes) + changed).

Definition set_entities (d : db) (es : list entity) (seq : nat) (changed : nat) : db :=
  mkDb d.(nodes) d.(sessions) d.(facts) es d.(aliases) d.(cooccurrences)
       d.(seq_facts) seq d.(seq_aliases) d.(seq_cooc) d.(now) (d.(total_changes) + changed).

Definition set_aliases (d : db) (als : list alias_row) (seq : nat) (changed : nat) : db :=
  mkDb d.(nodes) d.(sessions) d.(facts) d.(entities) als d.(cooccurrences)
       d.(seq_facts) d.(seq_entities) seq d.(seq_cooc) d.(now) (d.(total_changes) + changed).

Definition set_cooc (d : db) (cs : list cooc_row) (seq : nat) (changed : nat) : db :=
  mkDb d.(nodes) d.(sessions) d.(facts) d.(entities) d.(aliases) cs
       d.(seq_facts) d.(seq_entities) d.(seq_aliases) seq d.(now) (d.(total_changes) + changed).

Definition set_facts (d : db) (fs : list fact) (seq : nat) (changed : nat) : db :=
  mkDb d.(nodes) d.(sessions) fs d.(entities) d.(aliases) d.(cooccurrences)
       seq d.(seq_entities) d.(seq_aliases) d.(seq_cooc) d.(now)
       (d.(total_changes) + changed).

Definition empty_db : db := mkDb [] [] [] [] [] [] 0 0 0 0 0 0.

(** ** Node management *)

Definition opt_str_eqb (a b : option string) : bool :=
  match a, b with
  | Some x, Some y => String.eqb x y
  | _, _ => false   (* SQL: NULL = anything is not true *)
  end.

(** [create_node]: INSERT into [nodes]; the PRIMARY KEY on [id] raises
    IntegrityError, caught and turned into [False]. *)
Definition create_node (d : db) (node_id content : string)
    (parent_id : option string) (score : Q) (depth : Z)
    (meta : option json_dict) : bool * db :=
  if existsb (fun nd => String.eqb nd.(n_id) node_id) d.(nodes) then (false, d)
  else
    let meta' := match meta with Some [] => None | m => m end in
    let row := mkNode node_id parent_id content score "pending" depth
                      d.(now) d.(now) meta' in
    (true, set_nodes d (d.(nodes) ++ [row]) 1).

Definition apply_node_update (content : option string) (score : option Q)
    (status : option string) (meta : option json_dict) (t : nat) (nd : node) : node :=
  mkNode nd.(n_id) nd.(n_parent_id)
    (match content with Some c => c | None => nd.(n_content) end)
    (match score with Some s => s | None => nd.(n_score) end)
    (match status with Some s => s | None => nd.(n_status) end)
    nd.(n_depth) nd.(n_created_at) t
    (match meta with Some m => Some m | None => nd.(n_meta) end).

(** [update_node]: no field given returns [False]; otherwise one UPDATE ...
    WHERE id = ? and the result is [conn.total_changes > 0]. *)
Definition update_node (d : db) (node_id : string) (content : option string)
    (score : option Q) (status : option string) (meta : option json_dict)
    : bool * db :=
  match content, score, status, meta with
  | None, None, None, None => (false, d)
  | _, _, _, _ =>
      let hit nd := String.eqb nd.(n_id) node_id in
      let changed := length (filter hit d.(nodes)) in
      let ns := map (fun nd => if hit nd
                               then apply_node_update content score status meta d.(now) nd
                               else nd) d.(nodes) in
      let d' := set_nodes d ns changed in
      (Nat.ltb 0 d'.(total_changes), d')
  end.

(** [get_node]: SELECT * FROM nodes WHERE id = ?; [fetchone]. *)
Definition get_node (d : db) (node_id : string) : option node :=
  find (fun nd => String.eqb nd.(n_id) node_id) d.(nodes).

(** ORDER BY score DESC, created_at ASC *)
Definition score_desc_created_asc (a b : node) : bool :=
  Qle_bool b.(n_score) a.(n_score) &&
  (negb (Qeq_bool a.(n_score) b.(n_score)) || Nat.leb a.(n_created_at) b.(n_created_at)).

(** [get_children]: WHERE parent_id = ? ORDER BY score DESC, created_at ASC *)
Definition get_children (d : db) (parent_id : string) : list node :=
  sort_by score_desc_created_asc
    (filter (fun nd => opt_str_eqb nd.(n_parent_id) (Some parent_id)) d.(nodes)).

(** ORDER BY score DESC (no tie-break column). *)
Definition score_desc (a b : node) : bool := Qle_bool b.(n_score) a.(n_score).

(** Python truthiness of an optional string: [None] and [""] are false. *)
Definition py_truthy_str (p : option string) : option string :=
  match p with
  | Some s => if String.eqb s "" then None else Some s
  | None => None
  end.

(** Rows a [keep_best_n] call ranges over: the children of [parent] when a
    parent is given, every node otherwise. *)
Definition in_scope (parent : option string) (nd : node) : bool :=
  match parent with
  | Some p => opt_str_eqb nd.(n_parent_id) (Some p)
  | None => true
  end.

(** SQL [id IN (keep_ids)]. *)
Definition id_in (keep_ids : list string) (nd : node) : bool :=
  existsb (String.eqb nd.(n_id)) keep_ids.

(** [keep_best_n]: SELECT id ... ORDER BY score DESC LIMIT n, then DELETE
    every other row of the scope; returns [cursor.rowcount]. *)
Definition keep_best_n (d : db) (n : Z) (parent_id : option string) : nat * db :=
  let scope := in_scope (py_truthy_str parent_id) in
  let keep_ids := map n_id (sql_limit n (sort_by score_desc (filter scope d.(nodes)))) in
  match keep_ids with
  | [] => (0%nat, d)
  | _ :: _ =>
      let doomed nd := scope nd && negb (id_in keep_ids nd) in
      let deleted := length (filter doomed d.(nodes)) in
      (deleted, set_nodes d (filter (fun nd => negb (doomed nd)) d.(nodes)) deleted)
  end.

(** Result dictionaries of [check_circuit_break]. *)
Inductive cb_result :=
| CBInsufficientData (children_count : nat)
| CBBreak (consecutive_count : Z) (scores : list Q) (avg_score : Q)
          (threshold : Q) (affected_nodes : list string)
| CBScoresAcceptable (scores : list Q) (avg_score : Q).

Definition cb_should_break (r : cb_result) : bool :=
  match r with CBBreak _ _ _ _ _ => true | _ => false end.

(** [sorted(children, key=lambda x: x["created_at"])] *)
Definition created_asc (a b : node) : bool := Nat.leb a.(n_created_at) b.(n_created_at).

Definition py_mean (l : list Q) : exn + Q :=
  match l with
  | [] => inl ZeroDivisionError
  | _ :: _ => inr (py_sum l / inject_Z (Z.of_nat (length l)))%Q
  end.

(** Body of [check_circuit_break] once [children = self.get_children(node_id)]
    has been fetched. *)
Definition check_circuit_break_on (children : list node)
    (consecutive_threshold : Z) (score_threshold : Q) : exn + cb_result :=
  if Z.of_nat (length children) <? consecutive_threshold
  then inr (CBInsufficientData (length children))
  else
    let children_sorted := sort_by created_asc children in
    let recent_children := py_slice_from children_sorted (- consecutive_threshold) in
    let recent_scores := map n_score recent_children in
    let all_low := forallb (fun s => negb (Qle_bool score_threshold s)) recent_scores in
    if all_low
    then match py_mean recent_scores with
         | inl e => inl e
         | inr avg => inr (CBBreak consecutive_threshold recent_scores avg
                                   score_threshold (map n_id recent_children))
         end
    else match py_mean recent_scores with
         | inl e => inl e
         | inr avg => inr (CBScoresAcceptable recent_scores avg)
         end.

Definition check_circuit_break (d : db) (node_id : string)
    (consecutive_threshold : Z) (score_threshold : Q) : exn + cb_result :=
  check_circuit_break_on (get_children d node_id) consecutive_threshold score_threshold.

(** [_get_all_descendants]: pre-order, children in [get_children] order.
    [fuel] is the number of nested calls the Python stack has room for: a
    call made with no room left raises RecursionError. CPython counts every
    frame against its recursion limit (the caller's, those of the nested
    calls, and those of [get_children] and its connection context manager),
    so [fuel] is somewhat below the limit and depends on the caller. *)
Fixpoint get_all_descendants (fuel : nat) (d : db) (node_id : string)
    : exn + list string :=
  match fuel with
  | O => inl RecursionError
  | S f =>
      let fix go (cs : list node) : exn + list string :=
        match cs with
        | [] => inr []
        | c :: rest =>
            match get_all_descendants f d c.(n_id) with
            | inl e => inl e
            | inr ds =>
                match go rest with
                | inl e => inl e
                | inr rs => inr (c.(n_id) :: ds ++ rs)
                end
            end
        end in
      go (get_children d node_id)
  end.

(** CPython's default recursion limit, used as the fuel of the callers
    below. The properties proved with it either hold for every fuel or only
    conclude from a successful call, so the few frames the limit also has to
    hold do not matter to them. *)
Definition py_recursion_limit : nat := 1000.

(** Python [dict[k] = v]. *)
Fixpoint dict_set (k v : string) (m : json_dict) : json_dict :=
  match m with
  | [] => [(k, v)]
  | (k', v') :: t => if String.eqb k k' then (k, v) :: t else (k', v') :: dict_set k v t
  end.

(** One transaction of [DELETE FROM nodes WHERE id = ?] per descendant. *)
Definition delete_nodes_by_id (d : db) (ids : list string) : db :=
  fold_left (fun acc i =>
      let hit nd := String.eqb nd.(n_id) i in
      set_nodes acc (filter (fun nd => negb (hit nd)) acc.(nodes))
                (length (filter hit acc.(nodes)))) ids d.

(** [execute_circuit_break]: marks the node, then deletes its descendants.
    [meta.get("meta", {})] yields [None] for a node stored without metadata,
    and the item assignment on it raises TypeError. [now_iso] stands for
    [datetime.now().isoformat()]. Returns (pruned_count, pruned_nodes). *)
Definition execute_circuit_break (d : db) (node_id reason now_iso : string)
    : (exn + (nat * list string)) * db :=
  let marked : (exn + unit) * db :=
    match get_node d node_id with
    | None => (inr tt, d)
    | Some nd =>
        match nd.(n_meta) with
        | None => (inl TypeError, d)
        | Some m =>
            let m' := dict_set "circuit_break_timestamp" now_iso
                        (dict_set "circuit_break_reason" reason
                          (dict_set "circuit_broken" "true" m)) in
            (inr tt, snd (update_node d node_id None None (Some "circuit_broken"%string) (Some m')))
        end
    end in
  match marked with
  | (inl e, d1) => (inl e, d1)
  | (inr _, d1) =>
      match get_all_descendants py_recursion_limit d1 node_id with
      | inl e => (inl e, d1)
      | inr ds => (inr (length ds, ds), delete_nodes_by_id d1 ds)
      end
  end.

(** ** Sessions *)

(** [create_session]: INSERT into [research_sessions]; PRIMARY KEY on
    [session_id]; IntegrityError caught and turned into [False]. *)
Definition create_session (d : db) (session_id topic : string)
    (meta : option json_dict) : bool * db :=
  if existsb (fun s => String.eqb s.(s_session_id) session_id) d.(sessions) then (false, d)
  else
    let meta' := match meta with Some [] => None | m => m end in
    (true, set_sessions d (d.(sessions) ++ [mkSession session_id topic "active" d.(now) meta']) 1).

(** ** Fact ledger *)

(** [create_fact]: INSERT into [facts]; the CHECK constraint on [confidence]
    raises IntegrityError, which this method does not catch. SQLite stores a
    NaN bound to the REAL column [value_numeric] as NULL. Returns
    [cursor.lastrowid]. *)
Definition create_fact (d : db) (session_id entity attribute value value_type : string)
    (value_numeric : option float) (unit : option string) (confidence : string)
    : (exn + nat) * db :=
  if existsb (String.eqb confidence) ["High"; "Medium"; "Low"]%string then
    let new_id := S d.(seq_facts) in
    let stored_numeric :=
      match value_numeric with
      | Some x => if PrimFloat.is_nan x then None else Some x
      | None => None
      end in
    (inr new_id, set_facts d (d.(facts) ++ [mkFact new_id session_id entity attribute value
                                               value_type stored_numeric unit d.(now)]) new_id 1)
  else (inl IntegrityError, d).

Inductive severity := Critical | Moderate | Minor.

(** Python [max] / [min] over a non-empty list given as head and tail. *)
Definition py_max (h : Q) (t : list Q) : Q :=
  fold_left (fun m x => if Qle_bool x m then m else x) t h.
Definition py_min (h : Q) (t : list Q) : Q :=
  fold_left (fun m x => if Qle_bool m x then m else x) t h.

(** The same over floats: CPython's [max] replaces the current maximum by an
    item only when [item > maximum], [min] only when [item < minimum]. *)
Definition py_fmax (h : float) (t : list float) : float :=
  fold_left (fun m x => if (m <? x)%float then x else m) t h.
Definition py_fmin (h : float) (t : list float) : float :=
  fold_left (fun m x => if (x <? m)%float then x else m) t h.

Definition numeric_values (group_facts : list fact) : list float :=
  flat_map (fun f => match f.(f_value_numeric) with Some x => [x] | None => [] end)
           group_facts.

(** The severity of a group from [max_val] and [min_val], in float
    arithmetic: [max_val > 0], [(max_val - min_val) / max_val * 100],
    [diff_pct > 20], [diff_pct > 5]. *)
Definition severity_of_max_min (max_val min_val : float) : severity :=
  if (0 <? max_val)%float then
    let diff_pct := ((max_val - min_val) / max_val * 100)%float in
    if (20 <? diff_pct)%float then Critical
    else if (5 <? diff_pct)%float then Moderate
    else Minor
  else Minor.

(** Severity block of [detect_conflicts]. *)
Definition conflict_severity (group_facts : list fact) : severity :=
  if Nat.leb 2 (length group_facts) then
    let nums := numeric_values group_facts in
    if Nat.leb 2 (length nums) then
      match nums with
      | [] => Minor
      | h :: t => severity_of_max_min (py_fmax h t) (py_fmin h t)
      end
    else Minor
  else Minor.

Record conflict := mkConflict {
  c_entity : string;
  c_attribute : string;
  c_facts : list fact;
  c_conflict_type : string;
  c_severity : severity
}.

Definition key_dec : forall x y : string * string, {x = y} + {x <> y}.
Proof. decide equality; apply string_dec. Defined.

Definition in_group (session_id e a : string) (f : fact) : bool :=
  String.eqb f.(f_session_id) session_id && String.eqb f.(f_entity) e
  && String.eqb f.(f_attribute) a.

(** COUNT(DISTINCT value) of one (entity, attribute) group. *)
Definition value_count (d : db) (session_id e a : string) : nat :=
  length (nodup string_dec (map f_value (filter (in_group session_id e a) d.(facts)))).

(** GROUP BY entity, attribute (the order of the groups is left to SQLite;
    here one group per key). *)
Definition group_keys (d : db) (session_id : string) : list (string * string) :=
  nodup key_dec
    (map (fun f => (f.(f_entity), f.(f_attribute)))
         (filter (fun f => String.eqb f.(f_session_id) session_id) d.(facts))).

Definition created_asc_fact (a b : fact) : bool := Nat.leb a.(f_created_at) b.(f_created_at).

(** [conflict_type]: "numerical" when the first fact's [value_numeric] is
    truthy (non-NULL and non-zero). *)
Definition conflict_type_of (group_facts : list fact) : string :=
  match group_facts with
  | f :: _ =>
      match f.(f_value_numeric) with
      | Some x => if (x =? 0)%float then "scope" else "numerical"
      | None => "scope"
      end
  | [] => "scope"
  end.

Definition detect_conflicts (d : db) (session_id : string) : list conflict :=
  flat_map (fun '(e, a) =>
      if Nat.ltb 1 (value_count d session_id e a) then
        let group_facts := sort_by created_asc_fact (filter (in_group session_id e a) d.(facts)) in
        [mkConflict e a group_facts (conflict_type_of group_facts)
                    (conflict_severity group_facts)]
      else [])
    (group_keys d session_id).

(** ** Entity graph *)

(** [get_canonical_name]: first alias row matching [name], else [name]. *)
Definition get_canonical_name (d : db) (name : string) : string :=
  match find (fun r => String.eqb r.(al_alias) name) d.(aliases) with
  | Some r => r.(al_canonical_name)
  | None => name
  end.

(** [create_entity]: returns the id of the first entity of the session with the
    canonical name, or inserts one (AUTOINCREMENT id, [cursor.lastrowid]). *)
Definition create_entity (d : db) (session_id name : string)
    (entity_type description : option string) : nat * db :=
  let canonical := get_canonical_name d name in
  match find (fun e => String.eqb e.(e_session_id) session_id
                       && String.eqb e.(e_name) canonical) d.(entities) with
  | Some e => (e.(e_id), d)
  | None =>
      let new_id := S d.(seq_entities) in
      (new_id, set_entities d (d.(entities) ++
                  [mkEntity new_id session_id canonical entity_type description]) new_id 1)
  end.

(** [add_entity_alias]: the UNIQUE constraint on [alias] raises IntegrityError,
    caught and turned into [False]. *)
Definition add_entity_alias (d : db) (canonical_name alias : string) : bool * db :=
  if existsb (fun r => String.eqb r.(al_alias) alias) d.(aliases) then (false, d)
  else
    let new_id := S d.(seq_aliases) in
    (true, set_aliases d (d.(aliases) ++ [mkAlias new_id canonical_name alias]) new_id 1).

(** [record_cooccurrence]: orders the pair, then updates the first row of the
    pair (count + 1, [snippets[-10:]]) or inserts a new row with count 1. *)
Definition record_cooccurrence (d : db) (entity_a_id entity_b_id : nat)
    (context : string) : db :=
  let '(a, b) := if Nat.ltb entity_b_id entity_a_id
                 then (entity_b_id, entity_a_id) else (entity_a_id, entity_b_id) in
  match find (fun r => Nat.eqb r.(co_entity_a_id) a && Nat.eqb r.(co_entity_b_id) b)
             d.(cooccurrences) with
  | Some existing =>
      let snippets := existing.(co_context_snippets) ++ [context] in
      let hit r := Nat.eqb r.(co_id) existing.(co_id) in
      set_cooc d (map (fun r => if hit r
                                then mkCooc r.(co_id) r.(co_entity_a_id) r.(co_entity_b_id)
                                            (S r.(co_count)) (py_slice_from snippets (-10))
                                else r) d.(cooccurrences))
               d.(seq_cooc) (length (filter hit d.(cooccurrences)))
  | None =>
      let new_id := S d.(seq_cooc) in
      set_cooc d (d.(cooccurrences) ++ [mkCooc new_id a b 1 [context]]) new_id 1
  end.

(** ** Fact value parser ([FactLedger.parse_value])

    Inputs are ASCII strings; [\s], [\d] and [str.strip] are Python's
    whitespace and digit classes restricted to ASCII. *)

Definition is_ws (c : ascii) : bool :=
  let n := nat_of_ascii c in
  (Nat.leb 9 n && Nat.leb n 13) || (Nat.leb 28 n && Nat.leb n 32).

Definition is_digit (c : ascii) : bool :=
  let n := nat_of_ascii c in Nat.leb 48 n && Nat.leb n 57.

(** The class [[\d,.]]. *)
Definition is_numchar (c : ascii) : bool :=
  is_digit c || Ascii.eqb c "," || Ascii.eqb c ".".

(** Longest prefix satisfying [p], and the rest. *)
Fixpoint span (p : ascii -> bool) (l : list ascii) : list ascii * list ascii :=
  match l with
  | [] => ([], [])
  | c :: t => if p c then let '(a, b) := span p t in (c :: a, b) else ([], l)
  end.

(** [str.strip()] *)
Definition py_strip (l : list ascii) : list ascii :=
  rev (snd (span is_ws (rev (snd (span is_ws l))))).

Definition to_upper (c : ascii) : ascii :=
  let n := nat_of_ascii c in
  if Nat.leb 97 n && Nat.leb n 122 then ascii_of_nat (n - 32) else c.

Definition chars (s : string) : list ascii := list_ascii_of_string s.

(** Equality under [re.IGNORECASE] (ASCII letters). *)
Definition ci_eqb (l1 l2 : list ascii) : bool :=
  (length l1 =? length l2)%nat
  && forallb (fun '(a, b) => Ascii.eqb (to_upper a) (to_upper b)) (combine l1 l2).

Definition currency_suffixes : list string :=
  ["B"; "billion"; "M"; "million"; "K"; "thousand"; "T"; "trillion"]%string.

(** [re.match(r"^\$?([\d,.]+)\s*(B|billion|M|million|K|thousand|T|trillion)?$",
    value, re.IGNORECASE)]: groups 1 and 2. *)
Definition match_currency (v : list ascii) : option (list ascii * option (list ascii)) :=
  let v1 := match v with c :: t => if Ascii.eqb c "$" then t else v | [] => v end in
  let '(num, r1) := span is_numchar v1 in
  match num with
  | [] => None
  | _ :: _ =>
      let r2 := snd (span is_ws r1) in
      match r2 with
      | [] => Some (num, None)
      | _ :: _ =>
          if existsb (fun s => ci_eqb (chars s) r2) currency_suffixes
          then Some (num, Some r2) else None
      end
  end.

(** [re.match(r"^([\d,.]+)\s*%$", value)]: group 1. *)
Definition match_percentage (v : list ascii) : option (list ascii) :=
  let '(num, r1) := span is_numchar v in
  match num, snd (span is_ws r1) with
  | _ :: _, [c] => if Ascii.eqb c "%" then Some num else None
  | _, _ => None
  end.

(** [re.match(r"^([\d,.]+)$", value)]: group 1. *)
Definition match_plain (v : list ascii) : option (list ascii) :=
  match span is_numchar v with
  | (_ :: _ as num, []) => Some num
  | _ => None
  end.

Definition all_digits (n : nat) (l : list ascii) : bool :=
  (length l =? n)%nat && forallb is_digit l.

(** [r"^\d{4}-\d{2}-\d{2}$"] *)
Definition match_date_iso (v : list ascii) : bool :=
  match v with
  | [y1; y2; y3; y4; h1; m1; m2; h2; d1; d2] =>
      all_digits 4 [y1; y2; y3; y4] && Ascii.eqb h1 "-" && all_digits 2 [m1; m2]
      && Ascii.eqb h2 "-" && all_digits 2 [d1; d2]
  | _ => false
  end.

(** [r"^\d{4}$"] *)
Definition match_date_year (v : list ascii) : bool := all_digits 4 v.

Definition month_names : list string :=
  ["January"; "February"; "March"; "April"; "May"; "June"; "July"; "August";
   "September"; "October"; "November"; "December"]%string.

(** The part [\s+\d{1,2},?\s+\d{4}$] after the month name. *)
Definition match_day_year (r : list ascii) : bool :=
  let '(w1, r1) := span is_ws r in
  let '(dd, r2) := span is_digit r1 in
  let r3 := match r2 with c :: t => if Ascii.eqb c "," then t else r2 | [] => r2 end in
  let '(w2, r4) := span is_ws r3 in
  negb (length w1 =? 0)%nat && (Nat.leb 1 (length dd) && Nat.leb (length dd) 2)
  && negb (length w2 =? 0)%nat && all_digits 4 r4.

(** [r"^(January|...|December)\s+\d{1,2},?\s+\d{4}$"] with [re.IGNORECASE]. *)
Definition match_date_verbose (v : list ascii) : bool :=
  existsb (fun m =>
      let k := length (chars m) in
      ci_eqb (chars m) (firstn k v) && match_day_year (skipn k v)) month_names.

Definition digit_val (c : ascii) : Z := Z.of_nat (nat_of_ascii c) - 48.

Definition digits_val (l : list ascii) : Z :=
  fold_left (fun acc c => acc * 10 + digit_val c) l 0.

(** [float(s)] for a string of digits and dots: [ValueError] ([None]) unless
    it has at least one digit and at most one dot. *)
Definition py_float (s : list ascii) : option Q :=
  let '(ip, r) := span is_digit s in
  match r with
  | [] => match ip with [] => None | _ :: _ => Some (inject_Z (digits_val ip)) end
  | c :: fp =>
      if Ascii.eqb c "." && forallb is_digit fp
         && negb ((length ip =? 0)%nat && (length fp =? 0)%nat)
      then Some (inject_Z (digits_val ip)
                 + inject_Z (digits_val fp) / inject_Z (10 ^ Z.of_nat (length fp)))%Q
      else None
  end.

Definition remove_commas (l : list ascii) : list ascii :=
  filter (fun c => negb (Ascii.eqb c ",")) l.

(** Multiplier and unit chosen from [unit_suffix.upper()]. *)
Definition suffix_multiplier (suffix : option (list ascii)) : Q * string :=
  match suffix with
  | None => (1%Q, "USD"%string)
  | Some s =>
      let u := map to_upper s in
      if existsb (fun w => ci_eqb (chars w) u) ["B"; "BILLION"]%string then (10 ^ 9, "USD billion"%string)
      else if existsb (fun w => ci_eqb (chars w) u) ["M"; "MILLION"]%string then (10 ^ 6, "USD million"%string)
      else if existsb (fun w => ci_eqb (chars w) u) ["K"; "THOUSAND"]%string then (10 ^ 3, "USD thousand"%string)
      else if existsb (fun w => ci_eqb (chars w) u) ["T"; "TRILLION"]%string then (10 ^ 12, "USD trillion"%string)
      else (1%Q, "USD"%string)
  end%Q.

(** "Store in billions for consistency": the if/elif chain of the source. *)
Definition to_billions (multiplier numeric : Q) : Q :=
  if Qle_bool (10 ^ 9) multiplier then numeric
  else if Qeq_bool multiplier (10 ^ 6) then numeric / 1000
  else if Qeq_bool multiplier (10 ^ 3) then numeric / 10 ^ 6
  else if Qeq_bool multiplier (10 ^ 12) then numeric * 1000
  else numeric.

Definition parse_result := (option Q * string * option string)%type.

Definition parse_value (value : string) : parse_result :=
  let v := py_strip (chars value) in
  let currency :=
    match match_currency v with
    | Some (num, suffix) =>
        let '(multiplier, unit) := suffix_multiplier suffix in
        match py_float (remove_commas num) with
        | Some numeric => Some (Some (to_billions multiplier numeric), "currency"%string, Some unit)
        | None => None
        end
    | None => None
    end in
  match currency with
  | Some r => r
  | None =>
  let percentage :=
    match match_percentage v with
    | Some num =>
        match py_float (remove_commas num) with
        | Some numeric => Some (Some numeric, "percentage"%string, Some "percent"%string)
        | None => None
        end
    | None => None
    end in
  match percentage with
  | Some r => r
  | None =>
  if match_date_iso v || match_date_year v || match_date_verbose v
  then (None, "date"%string, None)
  else
    match match_plain v with
    | Some num =>
        match py_float (remove_commas num) with
        | Some numeric => (Some numeric, "number"%string, None)
        | None => (None, "text"%string, None)
        end
    | None => (None, "text"%string, None)
    end
  end
  end.

(** [parse_value] with the numbers CPython computes: [float(num_str)] is the
    double nearest the digit string, and the conversion to billions divides
    that double ([numeric / 1000], [numeric / 1e6]), rounding again. The
    branches, types and units are those of [parse_value]. *)
Definition to_billions_double (multiplier : Q) (numeric : float) : float :=
  if Qle_bool (10 ^ 9) multiplier then numeric
  else if Qeq_bool multiplier (10 ^ 6) then (numeric / 1000)%float
  else if Qeq_bool multiplier (10 ^ 3) then (numeric / 1000000)%float
  else if Qeq_bool multiplier (10 ^ 12) then (numeric * 1000)%float
  else numeric.

Definition parse_value_double (value : string) : option float * string * option string :=
  let v := py_strip (chars value) in
  let currency :=
    match match_currency v with
    | Some (num, suffix) =>
        let '(multiplier, unit) := suffix_multiplier suffix in
        match py_float (remove_commas num) with
        | Some numeric =>
            Some (Some (to_billions_double multiplier (Q2F numeric)), "currency"%string, Some unit)
        | None => None
        end
    | None => None
    end in
  match currency with
  | Some r => r
  | None =>
  let percentage :=
    match match_percentage v with
    | Some num =>
        match py_float (remove_commas num) with
        | Some numeric => Some (Some (Q2F numeric), "percentage"%string, Some "percent"%string)
        | None => None
        end
    | None => None
    end in
  match percentage with
  | Some r => r
  | None =>
  if match_date_iso v || match_date_year v || match_date_verbose v
  then (None, "date"%string, None)
  else
    match match_plain v with
    | Some num =>
        match py_float (remove_commas num) with
        | Some numeric => (Some (Q2F numeric), "number"%string, None)
        | None => (None, "text"%string, None)
        end
    | None => (None, "text"%string, None)
    end
  end
  end.

(** ** Further node queries of [StateManager] *)

(** [prune_low_score_nodes]: DELETE FROM nodes WHERE score < ?; returns
    [cursor.rowcount]. *)
Definition prune_low_score_nodes (d : db) (threshold : Q) : nat * db :=
  let low nd := negb (Qle_bool threshold nd.(n_score)) in
  let deleted := length (filter low d.(nodes)) in
  (deleted, set_nodes d (filter (fun nd => negb (low nd)) d.(nodes)) deleted).

(** [get_top_nodes]: WHERE score >= ? ORDER BY score DESC, created_at ASC LIMIT ? *)
Definition get_top_nodes (d : db) (limit : Z) (min_score : Q) : list node :=
  sql_limit limit
    (sort_by score_desc_created_asc
       (filter (fun nd => Qle_bool min_score nd.(n_score)) d.(nodes))).

(** SQLite [LIKE] without an ESCAPE clause: [%] matches any sequence, [_] any
    one character, and ASCII letters compare case-insensitively. *)
Fixpoint sql_like (p s : list ascii) : bool :=
  match p with
  | [] => match s with [] => true | _ :: _ => false end
  | c :: p' =>
      if Ascii.eqb c "%" then
        (fix star (s : list ascii) : bool :=
           sql_like p' s || match s with [] => false | _ :: s' => star s' end) s
      else
        match s with
        | [] => false
        | x :: s' =>
            (Ascii.eqb c "_" || Ascii.eqb (to_upper c) (to_upper x)) && sql_like p' s'
        end
  end.

(** [query_nodes]: each filter is added only when its argument is truthy
    ([min_score] when it is not None); [content LIKE '%keyword%']. *)
Definition query_nodes (d : db) (keyword : option string) (min_score : option Q)
    (status : option string) (limit : Z) : list node :=
  let kw_ok nd :=
    match py_truthy_str keyword with
    | Some k => sql_like (chars (String.append "%" (String.append k "%"))) (chars nd.(n_content))
    | None => true
    end in
  let score_ok nd :=
    match min_score with Some m => Qle_bool m nd.(n_score) | None => true end in
  let status_ok nd :=
    match py_truthy_str status with Some s => String.eqb nd.(n_status) s | None => true end in
  sql_limit limit
    (sort_by score_desc_created_asc
       (filter (fun nd => kw_ok nd && score_ok nd && status_ok nd) d.(nodes))).

(** [len([x for x in l if p(x)])] *)
Definition py_count {A} (p : A -> bool) (l : list A) : nat := length (filter p l).

(** Result dictionaries of [get_branch_health]. *)
Inductive branch_health :=
| BHUnknown (reason : string) (node_count : nat)
| BHReport (health recommendation : string) (node_count : nat)
           (avg_score : float) (max_score min_score : Q)
           (excellent good fair poor : nat).

(** [get_branch_health]: the scores of the descendants still stored
    ([SELECT score FROM nodes WHERE id = ?], [fetchone]). [max] and [min]
    only compare the stored doubles, which [Q] does exactly; the average is
    computed in floats: [sum] adds the doubles from left to right (CPython
    3.11; [0 + s] is [s]), and the division by [len] rounds once more. *)
Definition get_branch_health (d : db) (node_id : string) : exn + branch_health :=
  match get_all_descendants py_recursion_limit d node_id with
  | inl e => inl e
  | inr [] => inr (BHUnknown "no_descendants" 0)
  | inr descendants =>
      let scores := flat_map (fun i => match get_node d i with
                                       | Some nd => [nd.(n_score)]
                                       | None => []
                                       end) descendants in
      match scores with
      | [] => inr (BHUnknown "no_scores" (length descendants))
      | h :: t =>
          let avg_score :=
            (fold_left (fun acc s => acc + Q2F s) scores 0
             / Q2F (inject_Z (Z.of_nat (length scores))))%float in
          let '(health, recommendation) :=
            if (8 <=? avg_score)%float then ("excellent", "continue_and_extend")
            else if (6 <=? avg_score)%float then ("good", "continue")
            else if (4 <=? avg_score)%float then ("fair", "monitor")
            else ("poor", "consider_circuit_break") in
          inr (BHReport health recommendation (length descendants) avg_score
                 (py_max h t) (py_min h t)
                 (py_count (fun s => Qle_bool 9 s) scores)
                 (py_count (fun s => Qle_bool 7 s && negb (Qle_bool 9 s)) scores)
                 (py_count (fun s => Qle_bool 5 s && negb (Qle_bool 7 s)) scores)
                 (py_count (fun s => negb (Qle_bool 5 s)) scores))
      end
  end%string.

(** ** Information entropy ([calculate_information_entropy], [_extract_keywords])

    Contents are ASCII, where [str.lower] and [\w] are [A-Za-z0-9_]. *)

Definition to_lower (c : ascii) : ascii :=
  let n := nat_of_ascii c in
  if Nat.leb 65 n && Nat.leb n 90 then ascii_of_nat (n + 32) else c.

Definition is_word_char (c : ascii) : bool :=
  let n := nat_of_ascii c in
  is_digit c || (Nat.leb 65 n && Nat.leb n 90) || (Nat.leb 97 n && Nat.leb n 122)
  || Nat.eqb n 95.

(** [re.findall(r"\w+", text)]: the maximal runs of word characters; [cur] is
    the current run, reversed. *)
Fixpoint findall_words_go (l cur : list ascii) : list (list ascii) :=
  match l with
  | [] => match cur with [] => [] | _ :: _ => [rev cur] end
  | c :: t =>
      if is_word_char c then findall_words_go t (c :: cur)
      else match cur with
           | [] => findall_words_go t []
           | _ :: _ => rev cur :: findall_words_go t []
           end
  end.

Definition findall_words (l : list ascii) : list (list ascii) := findall_words_go l [].

Definition stop_words : list string :=
  ["the"; "a"; "an"; "and"; "or"; "but"; "in"; "on"; "at"; "to"; "for"; "of";
   "with"; "by"; "from"; "as"; "is"; "was"; "are"; "were"; "been"; "be"; "have";
   "has"; "had"; "do"; "does"; "did"; "will"; "would"; "could"; "should"; "may";
   "might"; "must"; "can"; "this"; "that"; "these"; "those"; "it"; "its"; "which";
   "what"; "who"; "when"; "where"]%string.

(** [_extract_keywords]: a Python set, as a duplicate-free list. *)
Definition extract_keywords (text : string) : list string :=
  nodup string_dec
    (filter (fun w => Nat.ltb 3 (String.length w) && negb (existsb (String.eqb w) stop_words))
       (map string_of_list_ascii (findall_words (map to_lower (chars text))))).

Definition py_set_mem (x : string) (s : list string) : bool := existsb (String.eqb x) s.
Definition py_set_inter (a b : list string) : list string := filter (fun x => py_set_mem x b) a.
Definition py_set_diff (a b : list string) : list string :=
  filter (fun x => negb (py_set_mem x b)) a.
Definition py_set_union (a b : list string) : list string := a ++ py_set_diff b a.

(** Contents of the listed nodes that exist, in list order. *)
Definition contents_of (d : db) (ids : list string) : list string :=
  flat_map (fun i => match get_node d i with Some nd => [nd.(n_content)] | None => [] end) ids.

(** Result dictionaries of [calculate_information_entropy]. *)
Inductive entropy_result :=
| EntropyNoKeywords (new_keyword_count existing_keyword_count : nat)
| EntropyReport (entropy : Q) (interpretation : string)
                (new_keyword_count existing_keyword_count unique_new_keywords
                 overlap_count : nat) (overlap_ratio : Q) (recommendation : string).

Definition calculate_information_entropy (d : db)
    (new_node_ids existing_node_ids : list string) : entropy_result :=
  let new_keywords := extract_keywords (String.concat " " (contents_of d new_node_ids)) in
  let existing_keywords :=
    extract_keywords (String.concat " " (contents_of d existing_node_ids)) in
  match new_keywords, existing_keywords with
  | [], _ | _, [] => EntropyNoKeywords (length new_keywords) (length existing_keywords)
  | _ :: _, _ :: _ =>
      let overlap := py_set_inter new_keywords existing_keywords in
      let union := py_set_union new_keywords existing_keywords in
      let unique_new := py_set_diff new_keywords existing_keywords in
      let entropy := (inject_Z (Z.of_nat (length unique_new))
                      / inject_Z (Z.of_nat (length new_keywords)))%Q in
      let interpretation :=
        if negb (Qle_bool entropy (7 # 10)) then "high_novelty"
        else if negb (Qle_bool entropy (4 # 10)) then "moderate_novelty"
        else if negb (Qle_bool entropy (2 # 10)) then "low_novelty"
        else "duplicate_content" in
      let overlap_ratio :=
        match union with
        | [] => 0%Q
        | _ :: _ => (inject_Z (Z.of_nat (length overlap))
                     / inject_Z (Z.of_nat (length union)))%Q
        end in
      EntropyReport entropy interpretation (length new_keywords) (length existing_keywords)
        (length unique_new) (length overlap) overlap_ratio
        (if negb (Qle_bool entropy (2 # 10)) then "continue" else "stop_exploration")
  end%string.

(** ** Entity graph queries and [EntityGraph] *)

(** [EntityGraph.get_entity_by_name]: the first entity of the session named by
    the canonical form of [name]. *)
Definition get_entity_by_name (d : db) (session_id name : string) : option entity :=
  let canonical := get_canonical_name d name in
  find (fun e => String.eqb e.(e_session_id) session_id && String.eqb e.(e_name) canonical)
       d.(entities).

(** [EntityGraph.record_cooccurrence]: get or create both entities, then
    [StateManager.record_cooccurrence] on their ids. *)
Definition eg_record_cooccurrence (d : db) (session_id entity_a_name entity_b_name context : string)
    : db :=
  let '(entity_a_id, d1) := create_entity d session_id entity_a_name None None in
  let '(entity_b_id, d2) := create_entity d1 session_id entity_b_name None None in
  record_cooccurrence d2 entity_a_id entity_b_id context.

Record edge_row := mkEdge {
  ed_id : nat;
  ed_session_id : string;
  ed_source_entity_id : nat;
  ed_target_entity_id : nat;
  ed_relation_type : string;
  ed_confidence : Q;
  ed_evidence : option string;
  ed_source_url : option string
}.

(** The database together with the [entity_edges] table. *)
Record graph_db := mkGraphDb {
  g_base : db;
  g_edges : list edge_row;
  g_seq_edges : nat     (* sqlite_sequence of [entity_edges] *)
}.

(** [conn.total_changes] grows by [k]; no table changes. *)
Definition add_changes (d : db) (k : nat) : db := set_nodes d d.(nodes) k.

(** [create_entity_edge]: INSERT into [entity_edges]; returns [lastrowid]. *)
Definition create_entity_edge (g : graph_db) (session_id : string)
    (source_entity_id target_entity_id : nat) (relation_type : string) (confidence : Q)
    (evidence source_url : option string) : nat * graph_db :=
  let new_id := S g.(g_seq_edges) in
  (new_id, mkGraphDb (add_changes g.(g_base) 1)
             (g.(g_edges) ++ [mkEdge new_id session_id source_entity_id target_entity_id
                                     relation_type confidence evidence source_url])
             new_id).

(** A row of [StateManager.get_related_entities]: [e.*] and the edge columns. *)
Record related := mkRelated {
  r_entity : entity;
  r_relation_type : string;
  r_confidence : Q;
  r_evidence : option string;
  r_direction : string
}.

(** [StateManager.get_related_entities]: the outgoing join, then the incoming
    one (each join listed edge by edge). *)
Definition sm_get_related_entities (g : graph_db) (entity_id : nat)
    (relation_type : option string) (direction : string) : list related :=
  let rel_ok ed :=
    match py_truthy_str relation_type with
    | Some r => String.eqb ed.(ed_relation_type) r
    | None => true
    end in
  let join (key other : edge_row -> nat) (dir : string) :=
    flat_map (fun ed =>
        if Nat.eqb (key ed) entity_id && rel_ok ed
        then map (fun e => mkRelated e ed.(ed_relation_type) ed.(ed_confidence)
                                       ed.(ed_evidence) dir)
                 (filter (fun e => Nat.eqb e.(e_id) (other ed)) g.(g_base).(entities))
        else []) g.(g_edges) in
  (if existsb (String.eqb direction) ["outgoing"; "both"]%string
   then join ed_source_entity_id ed_target_entity_id "outgoing"%string else [])
  ++ (if existsb (String.eqb direction) ["incoming"; "both"]%string
      then join ed_target_entity_id ed_source_entity_id "incoming"%string else []).

(** A result of [EntityGraph.get_related_entities]: the row with the [depth]
    and [path] keys added. *)
Record traversal_hit := mkHit {
  h_related : related;
  h_depth : Z;
  h_path : list string
}.

(** The nested [traverse] of [EntityGraph.get_related_entities], threading the
    shared [visited] set and [results] list. [fuel] bounds the nesting: called
    with [Z.to_nat depth] at [current_depth = 1] it never runs out before the
    guard [current_depth < depth] fails. *)
Fixpoint eg_traverse (g : graph_db) (relation_type : option string) (direction : string)
    (depth : Z) (fuel : nat) (entity_id : nat) (current_depth : Z) (path : list string)
    (st : list nat * list traversal_hit) : list nat * list traversal_hit :=
  if depth <? current_depth then st
  else
    fold_left (fun st rel =>
        let '(visited, results) := st in
        let rid := rel.(r_entity).(e_id) in
        if existsb (Nat.eqb rid) visited then st
        else
          let path' := path ++ [rel.(r_relation_type)] in
          let st' := (visited ++ [rid], results ++ [mkHit rel current_depth path']) in
          if current_depth <? depth then
            match fuel with
            | O => st'
            | S f => eg_traverse g relation_type direction depth f rid (current_depth + 1) path' st'
            end
          else st')
      (sm_get_related_entities g entity_id relation_type direction) st.

(** [EntityGraph.get_related_entities] *)
Definition eg_get_related_entities (g : graph_db) (session_id entity_name : string)
    (relation_type : option string) (direction : string) (depth : Z) : list traversal_hit :=
  match get_entity_by_name g.(g_base) session_id entity_name with
  | None => []
  | Some e =>
      snd (eg_traverse g relation_type direction depth (Z.to_nat depth) e.(e_id) 1 []
             ([e.(e_id)], []))
  end.

(** [EntityGraph.add_edge]: get or create both entities, then insert the edge.
    Returns (edge_id, source_id, target_id). *)
Definition eg_add_edge (g : graph_db) (session_id source_name target_name relation_type : string)
    (confidence : Q) (evidence : option string) : (nat * nat * nat) * graph_db :=
  let '(source_id, d1) := create_entity g.(g_base) session_id source_name None None in
  let '(target_id, d2) := create_entity d1 session_id target_name None None in
  let '(edge_id, g') :=
    create_entity_edge (mkGraphDb d2 g.(g_edges) g.(g_seq_edges)) session_id source_id
                       target_id relation_type confidence evidence None in
  ((edge_id, source_id, target_id), g').

(** ** Interrupt events *)

Record interrupt_event := mkInterrupt {
  ie_id : nat;
  ie_session_id : string;
  ie_condition : string;
  ie_message : string;
  ie_user_response : option string;
  ie_created_at : nat;
  ie_resolved_at : option nat
}.

(** The database together with the [interrupt_events] table. *)
Record interrupt_db := mkInterruptDb {
  i_base : db;
  i_events : list interrupt_event;
  i_seq_events : nat     (* sqlite_sequence of [interrupt_events] *)
}.

(** [create_interrupt]: INSERT; returns [cursor.lastrowid]. *)
Definition create_interrupt (g : interrupt_db) (session_id condition message : string)
    : nat * interrupt_db :=
  let new_id := S g.(i_seq_events) in
  (new_id, mkInterruptDb (add_changes g.(i_base) 1)
             (g.(i_events) ++ [mkInterrupt new_id session_id condition message None
                                           g.(i_base).(now) None])
             new_id).

(** [resolve_interrupt]: UPDATE ... WHERE id = ?; returns
    [conn.total_changes > 0]. *)
Definition resolve_interrupt (g : interrupt_db) (interrupt_id : nat) (user_response : string)
    : bool * interrupt_db :=
  let hit ev := Nat.eqb ev.(ie_id) interrupt_id in
  let base' := add_changes g.(i_base) (length (filter hit g.(i_events))) in
  (Nat.ltb 0 base'.(total_changes),
   mkInterruptDb base'
     (map (fun ev => if hit ev
                     then mkInterrupt ev.(ie_id) ev.(ie_session_id) ev.(ie_condition)
                                      ev.(ie_message) (Some user_response) ev.(ie_created_at)
                                      (Some g.(i_base).(now))
                     else ev) g.(i_events))
     g.(i_seq_events)).

(** ORDER BY created_at DESC *)
Definition created_desc_ie (a b : interrupt_event) : bool :=
  Nat.leb b.(ie_created_at) a.(ie_created_at).

(** [get_pending_interrupts]: WHERE session_id = ? AND resolved_at IS NULL
    ORDER BY created_at DESC. *)
Definition get_pending_interrupts (g : interrupt_db) (session_id : string)
    : list interrupt_event :=
  sort_by created_desc_ie
    (filter (fun ev => String.eqb ev.(ie_session_id) session_id
                       && match ev.(ie_resolved_at) with None => true | Some _ => false end)
            g.(i_events)).

(** ** Agent heartbeats *)

Record agent_row := mkAgent {
  ag_agent_id : string;
  ag_last_seen : nat;
  ag_current_action : option string;
  ag_status : string;
  ag_meta : option json_dict
}.

(** The database together with the [agent_heartbeats] table. *)
Record agent_db := mkAgentDb {
  a_base : db;
  a_agents : list agent_row
}.

(** [register_agent]: INSERT OR REPLACE (the PRIMARY KEY [agent_id] row is
    deleted, then the new row inserted); [json.dumps(meta) if meta else
    None]; returns [True]. *)
Definition register_agent (g : agent_db) (agent_id : string) (meta : option json_dict)
    : bool * agent_db :=
  let meta' := match meta with Some [] => None | m => m end in
  (true, mkAgentDb (add_changes g.(a_base) 1)
           (filter (fun r => negb (String.eqb r.(ag_agent_id) agent_id)) g.(a_agents)
            ++ [mkAgent agent_id g.(a_base).(now) None "active" meta'])).

(** [update_agent_heartbeat]: one UPDATE of [last_seen] and the given
    fields; returns [conn.total_changes > 0]. *)
Definition update_agent_heartbeat (g : agent_db) (agent_id : string)
    (current_action status : option string) : bool * agent_db :=
  let hit r := String.eqb r.(ag_agent_id) agent_id in
  let base' := add_changes g.(a_base) (length (filter hit g.(a_agents))) in
  (Nat.ltb 0 base'.(total_changes),
   mkAgentDb base'
     (map (fun r => if hit r
                    then mkAgent r.(ag_agent_id) g.(a_base).(now)
                                 (match current_action with Some a => Some a
                                                          | None => r.(ag_current_action) end)
                                 (match status with Some s => s | None => r.(ag_status) end)
                                 r.(ag_meta)
                    else r) g.(a_agents))).

(** ORDER BY last_seen DESC *)
Definition last_seen_desc (a b : agent_row) : bool := Nat.leb b.(ag_last_seen) a.(ag_last_seen).

(** [get_active_agents]: WHERE status = 'active' ORDER BY last_seen DESC. *)
Definition get_active_agents (g : agent_db) : list agent_row :=
  sort_by last_seen_desc (filter (fun r => String.eqb r.(ag_status) "active") g.(a_agents)).

(** * Properties *)

From Stdlib Require Import Lqa.

(** ** Sorting and list lemmas *)

Section SortBy.
Context {A : Type} (le : A -> A -> bool).
Hypothesis le_total : forall a b, le a b = false -> le b a = true.

Lemma insert_by_perm : forall x l, Permutation (insert_by le x l) (x :: l).
Proof.
  intros x l; induction l as [|y t IH]; simpl; [reflexivity|].
  destruct (le x y); [reflexivity|].
  rewrite IH. apply perm_swap.
Qed.

Lemma sort_by_perm : forall l, Permutation (sort_by le l) l.
Proof.
  induction l as [|x t IH]; simpl; [reflexivity|].
  rewrite insert_by_perm. now apply perm_skip.
Qed.

Let R a b := le a b = true.

Lemma insert_by_sorted : forall x l, Sorted R l -> Sorted R (insert_by le x l).
Proof.
  intros x l; induction l as [|y t IH]; intros Hs; simpl.
  - repeat constructor.
  - destruct (le x y) eqn:Exy.
    + constructor; [exact Hs | constructor; exact Exy].
    + apply Sorted_inv in Hs as [Ht Hhd].
      constructor; [now apply IH|].
      destruct t as [|z t']; simpl.
      * constructor. now apply le_total.
      * destruct (le x z); constructor.
        -- now apply le_total.
        -- now inversion Hhd.
Qed.

Lemma sort_by_sorted : forall l, Sorted R (sort_by le l).
Proof.
  induction l as [|x t IH]; simpl; [constructor|].
  now apply insert_by_sorted.
Qed.
End SortBy.

Lemma StronglySorted_app_rel {A} (R : A -> A -> Prop) :
  forall l1 l2 a b, StronglySorted R (l1 ++ l2) -> In a l1 -> In b l2 -> R a b.
Proof.
  induction l1 as [|x t IH]; intros l2 a b Hs Ha Hb; [destruct Ha|].
  simpl in Hs. apply StronglySorted_inv in Hs as [Hs Hall].
  destruct Ha as [<-|Ha].
  - rewrite Forall_forall in Hall. apply Hall, in_or_app; now right.
  - eapply IH; eauto.
Qed.

Lemma filter_length_perm {A} (f : A -> bool) :
  forall l1 l2, Permutation l1 l2 -> length (filter f l1) = length (filter f l2).
Proof.
  intros l1 l2 P; induction P; simpl.
  - reflexivity.
  - destruct (f x); simpl; auto.
  - destruct (f x), (f y); reflexivity.
  - congruence.
Qed.

Lemma NoDup_map_app_disjoint {A B} (f : A -> B) :
  forall l1 l2 a b, NoDup (map f (l1 ++ l2)) -> In a l1 -> In b l2 -> f a <> f b.
Proof.
  induction l1 as [|x t IH]; intros l2 a b Hnd Ha Hb; [destruct Ha|].
  simpl in Hnd. inversion Hnd as [|? ? Hnin Hnd']; subst.
  destruct Ha as [<-|Ha].
  - intros E. apply Hnin. rewrite E, map_app. apply in_or_app; right. now apply in_map.
  - eapply IH; eauto.
Qed.

Lemma NoDup_map_filter {A B} (f : A -> B) (p : A -> bool) :
  forall l, NoDup (map f l) -> NoDup (map f (filter p l)).
Proof.
  induction l as [|x t IH]; intros Hnd; simpl; [constructor|].
  inversion Hnd as [|? ? Hnin Hnd']; subst.
  destruct (p x); simpl; [|now apply IH].
  constructor; [|now apply IH].
  intros Hin. apply Hnin. apply in_map_iff in Hin as [y [Ey Hy]].
  apply filter_In in Hy as [Hy _]. rewrite <- Ey. now apply in_map.
Qed.

Lemma filter_length_split {A} (p q : A -> bool) :
  forall l, (length (filter (fun x => p x && q x) l)
            + length (filter (fun x => p x && negb (q x)) l) = length (filter p l))%nat.
Proof.
  induction l as [|x t IH]; simpl; [reflexivity|].
  destruct (p x), (q x); simpl; lia.
Qed.

Lemma existsb_eqb_in : forall (s : string) l, existsb (String.eqb s) l = true <-> In s l.
Proof.
  intros s l. rewrite existsb_exists. split.
  - intros [x [Hx E]]. apply String.eqb_eq in E. now subst.
  - intros H. exists s. split; [exact H | apply String.eqb_refl].
Qed.

Lemma filter_all_true {A} (f : A -> bool) :
  forall l, (forall x, In x l -> f x = true) -> filter f l = l.
Proof.
  induction l as [|x t IH]; intros H; simpl; [reflexivity|].
  rewrite (H x (or_introl eq_refl)), IH; [reflexivity|].
  intros y Hy; apply H; now right.
Qed.

Lemma filter_all_false {A} (f : A -> bool) :
  forall l, (forall x, In x l -> f x = false) -> filter f l = [].
Proof.
  induction l as [|x t IH]; intros H; simpl; [reflexivity|].
  rewrite (H x (or_introl eq_refl)). apply IH.
  intros y Hy; apply H; now right.
Qed.

(** ** Best-N pruning *)

Lemma score_desc_total : forall a b, score_desc a b = false -> score_desc b a = true.
Proof.
  unfold score_desc; intros a b H.
  apply Qle_bool_iff. destruct (Qle_bool (n_score b) (n_score a)) eqn:E; [discriminate|].
  assert (~ (n_score b <= n_score a)%Q) as Hn
    by (intros Hle; apply Qle_bool_iff in Hle; congruence).
  apply Qnot_le_lt in Hn. now apply Qlt_le_weak.
Qed.

Lemma score_desc_trans : Transitive (fun a b => score_desc a b = true).
Proof.
  unfold score_desc; intros a b c H1 H2.
  apply Qle_bool_iff in H1, H2. apply Qle_bool_iff. eapply Qle_trans; eauto.
Qed.

Lemma keep_filter_scope (scope mem : node -> bool) :
  forall l, filter scope (filter (fun nd => negb (scope nd && negb (mem nd))) l)
            = filter (fun nd => scope nd && mem nd) l.
Proof.
  induction l as [|x t IH]; simpl; [reflexivity|].
  destruct (scope x) eqn:Es, (mem x) eqn:Em; simpl; rewrite ?Es, ?IH; reflexivity.
Qed.

Lemma keep_filter_outside (scope mem : node -> bool) :
  forall l, filter (fun nd => negb (scope nd))
                   (filter (fun nd => negb (scope nd && negb (mem nd))) l)
            = filter (fun nd => negb (scope nd)) l.
Proof.
  induction l as [|x t IH]; simpl; [reflexivity|].
  destruct (scope x) eqn:Es, (mem x) eqn:Em; simpl; rewrite ?Es, ?IH; reflexivity.
Qed.

Lemma filter_and {A} (p q : A -> bool) :
  forall l, filter (fun x => p x && q x) l = filter q (filter p l).
Proof.
  induction l as [|x t IH]; simpl; [reflexivity|].
  destruct (p x), (q x) eqn:Eq; simpl; rewrite ?Eq, ?IH; reflexivity.
Qed.

(** C1 (amended). For n >= 1, [keep_best_n n parent_id] ranges over every node
    of its scope (the children of [parent_id], or all nodes), whatever their
    status. Afterwards exactly min(n, |scope|) nodes of the scope remain, the
    returned count is the number of scope nodes removed, every remaining scope
    node scores at least as high as every removed one, nodes outside the scope
    are untouched, and the removed nodes are deleted from the table: every row
    left is an unchanged row of the old table, so no status is set to PRUNED. *)
Theorem keep_best_n_deletes_all_but_top_n :
  forall d n parent_id,
    (1 <= n)%Z ->
    NoDup (map n_id d.(nodes)) ->
    let scope := in_scope (py_truthy_str parent_id) in
    let r := keep_best_n d n parent_id in
    length (filter scope (snd r).(nodes))
      = Nat.min (Z.to_nat n) (length (filter scope d.(nodes)))
    /\ fst r = (length (filter scope d.(nodes)) - length (filter scope (snd r).(nodes)))%nat
    /\ (forall k x, In k (filter scope (snd r).(nodes)) ->
                    In x (filter scope d.(nodes)) -> ~ In x (snd r).(nodes) ->
                    (n_score x <= n_score k)%Q)
    /\ filter (fun nd => negb (scope nd)) (snd r).(nodes)
       = filter (fun nd => negb (scope nd)) d.(nodes)
    /\ incl (snd r).(nodes) d.(nodes).
Proof.
  intros d n parent_id Hn Hnd scope r.
  subst r. unfold keep_best_n. fold scope.
  remember (filter scope d.(nodes)) as S eqn:ES.
  remember (sort_by score_desc S) as sorted eqn:Esorted.
  assert (Hlim : sql_limit n sorted = firstn (Z.to_nat n) sorted)
    by (unfold sql_limit; destruct (n <? 0)%Z eqn:E; [apply Z.ltb_lt in E; lia | reflexivity]).
  rewrite Hlim.
  remember (firstn (Z.to_nat n) sorted) as K eqn:EK.
  remember (skipn (Z.to_nat n) sorted) as R eqn:ER.
  assert (Hsplit : sorted = K ++ R) by (subst; symmetry; apply firstn_skipn).
  assert (Hperm : Permutation S (K ++ R))
    by (rewrite <- Hsplit, Esorted; symmetry; apply sort_by_perm).
  assert (HndKR : NoDup (map n_id (K ++ R))).
  { apply Permutation_NoDup with (map n_id S); [now apply Permutation_map|].
    subst S; now apply NoDup_map_filter. }
  assert (HssKR : StronglySorted (fun a b => score_desc a b = true) (K ++ R)).
  { rewrite <- Hsplit, Esorted. apply Sorted_StronglySorted; [apply score_desc_trans|].
    apply sort_by_sorted, score_desc_total. }
  assert (HlenS : length S = length (K ++ R)) by (now apply Permutation_length).
  assert (HlenK : length K = Nat.min (Z.to_nat n) (length S)).
  { subst K. rewrite length_firstn. rewrite HlenS, <- Hsplit. reflexivity. }
  destruct (map n_id K) as [|k0 ks] eqn:EkeepK.
  - (* nothing selected: the scope is empty *)
    destruct K as [|? ?]; [|discriminate]. simpl.
    assert (Hs0 : sorted = []).
    { destruct sorted as [|x t]; [reflexivity|].
      rewrite EK in *. destruct (Z.to_nat n) eqn:Em; [lia|discriminate]. }
    assert (HS0 : S = []).
    { apply length_zero_iff_nil. rewrite HlenS, <- Hsplit, Hs0. reflexivity. }
    rewrite <- ES, HS0. simpl.
    split; [lia|]. split; [reflexivity|]. split; [intros k x _ Hx; destruct Hx|].
    split; [reflexivity | apply incl_refl].
  - rewrite <- EkeepK. simpl.
    set (mem := id_in (map n_id K)).
    assert (HmemK : forall x, In x K -> mem x = true).
    { intros x Hx. unfold mem, id_in. apply existsb_eqb_in. now apply in_map. }
    assert (HmemR : forall x, In x R -> mem x = false).
    { intros x Hx. unfold mem, id_in. destruct (existsb _ _) eqn:E; [|reflexivity].
      apply existsb_eqb_in, in_map_iff in E as [y [Ey Hy]].
      exfalso. eapply (NoDup_map_app_disjoint n_id K R y x); eauto. }
    assert (Hin_scope : filter scope
              (filter (fun nd => negb (scope nd && negb (mem nd))) d.(nodes))
            = filter mem S).
    { rewrite keep_filter_scope, filter_and. now subst S. }
    assert (HcountS : length (filter mem S) = length K).
    { rewrite (filter_length_perm mem _ _ Hperm), filter_app,
        (filter_all_true mem K HmemK), (filter_all_false mem R HmemR), app_nil_r.
      reflexivity. }
    rewrite Hin_scope. repeat split.
    + now rewrite HcountS.
    + pose proof (filter_length_split scope mem d.(nodes)) as Hsp.
      rewrite filter_and, <- ES in Hsp. lia.
    + intros k x Hk Hx Hxn.
      apply filter_In in Hk as [HkS HkM].
      assert (HkK : In k K).
      { apply (Permutation_in _ Hperm) in HkS. apply in_app_or in HkS as [?|HkR]; auto.
        rewrite (HmemR k HkR) in HkM; discriminate. }
      assert (HxR : In x R).
      { pose proof Hx as HxS. apply (Permutation_in _ Hperm) in HxS.
        apply in_app_or in HxS as [HxK|?]; auto.
        exfalso. apply Hxn. apply filter_In. subst S. apply filter_In in Hx as [Hxd Hxs].
        split; [exact Hxd|]. rewrite Hxs, (HmemK x HxK). reflexivity. }
      pose proof (StronglySorted_app_rel _ K R k x HssKR HkK HxR) as Hkx.
      unfold score_desc in Hkx. now apply Qle_bool_iff in Hkx.
    + apply keep_filter_outside.
    + intros x Hx. now apply filter_In in Hx as [Hx _].
Qed.

(** The end-to-end tree of the spec: root R and three children scored 9.0,
    4.0 and 3.5. *)
Definition scenario_tree : db :=
  let d := snd (create_node empty_db "R" "root" None 0 0 None) in
  let d := snd (create_node d "c1" "first" (Some "R"%string) 9 1 None) in
  let d := snd (create_node d "c2" "second" (Some "R"%string) 4 1 None) in
  snd (create_node d "c3" "third" (Some "R"%string) (35 # 10) 1 None).

Lemma scenario_tree_ids_nodup : NoDup (map n_id scenario_tree.(nodes)).
Proof. vm_compute. repeat constructor; simpl; intuition discriminate. Qed.

Lemma keep_best_n_deletes_all_but_top_n_witness :
  let scope := in_scope (py_truthy_str (Some "R"%string)) in
  let r := keep_best_n scenario_tree 1 (Some "R"%string) in
  length (filter scope (snd r).(nodes))
    = Nat.min (Z.to_nat 1) (length (filter scope scenario_tree.(nodes)))
  /\ fst r = (length (filter scope scenario_tree.(nodes))
              - length (filter scope (snd r).(nodes)))%nat
  /\ (forall k x, In k (filter scope (snd r).(nodes)) ->
                  In x (filter scope scenario_tree.(nodes)) -> ~ In x (snd r).(nodes) ->
                  (n_score x <= n_score k)%Q)
  /\ filter (fun nd => negb (scope nd)) (snd r).(nodes)
     = filter (fun nd => negb (scope nd)) scenario_tree.(nodes)
  /\ incl (snd r).(nodes) scenario_tree.(nodes).
Proof.
  apply keep_best_n_deletes_all_but_top_n; [lia | exact scenario_tree_ids_nodup].
Defined.

(** C1 counterexample. On the spec's end-to-end tree, [keep_best_n(1, R)]
    keeps the 9.0 child but deletes the 4.0 child: [get_node] no longer finds
    it, so it is not retained with status PRUNED. *)
Lemma keep_best_n_does_not_retain_pruned :
  let d' := snd (keep_best_n scenario_tree 1 (Some "R"%string)) in
  get_node d' "c1" <> None
  /\ ~ (exists nd, get_node d' "c2" = Some nd /\ n_status nd = "pruned"%string).
Proof.
  vm_compute. split; [discriminate|]. intros [nd [H _]]. discriminate H.
Qed.

(** ** Depth invariant *)

Definition depth_invariant (ns : list node) : Prop :=
  forall c p, In c ns -> In p ns -> n_parent_id c = Some (n_id p) ->
              n_depth c = n_depth p + 1.

Lemma depth_invariant_incl : forall ns ns',
  incl ns' ns -> depth_invariant ns -> depth_invariant ns'.
Proof. intros ns ns' Hi Hinv c p Hc Hp E. apply Hinv; auto. Qed.

Lemma depth_invariant_map : forall (g : node -> node) ns,
  (forall x, n_id (g x) = n_id x /\ n_parent_id (g x) = n_parent_id x
             /\ n_depth (g x) = n_depth x) ->
  depth_invariant ns -> depth_invariant (map g ns).
Proof.
  intros g ns Hg Hinv c p Hc Hp E.
  apply in_map_iff in Hc as [c0 [<- Hc0]]. apply in_map_iff in Hp as [p0 [<- Hp0]].
  destruct (Hg c0) as [_ [Pc Dc]]. destruct (Hg p0) as [Ip [_ Dp]].
  rewrite Dc, Dp. apply Hinv; auto. congruence.
Qed.

Lemma update_node_nodes : forall d nid c s st m,
  depth_invariant d.(nodes) -> depth_invariant (snd (update_node d nid c s st m)).(nodes).
Proof.
  intros d nid c s st m Hinv. unfold update_node.
  destruct c, s, st, m; simpl; try exact Hinv;
    apply depth_invariant_map; auto;
    intros x; destruct (String.eqb (n_id x) nid); simpl; auto.
Qed.

Lemma delete_nodes_by_id_incl : forall ids d,
  incl (delete_nodes_by_id d ids).(nodes) d.(nodes).
Proof.
  unfold delete_nodes_by_id.
  induction ids as [|i t IH]; intros d; simpl; [apply incl_refl|].
  eapply incl_tran; [apply IH|]. simpl.
  intros x Hx. now apply filter_In in Hx as [Hx _].
Qed.

Lemma keep_best_n_incl : forall d n p,
  incl (snd (keep_best_n d n p)).(nodes) d.(nodes).
Proof.
  intros d n p. unfold keep_best_n.
  destruct (map n_id _); simpl; [apply incl_refl|].
  intros x Hx. now apply filter_In in Hx as [Hx _].
Qed.

Lemma execute_circuit_break_inv : forall d nid reason ts,
  depth_invariant d.(nodes) ->
  depth_invariant (snd (execute_circuit_break d nid reason ts)).(nodes).
Proof.
  intros d nid reason ts Hinv. unfold execute_circuit_break.
  assert (Hdesc : forall d1, depth_invariant d1.(nodes) ->
            depth_invariant (snd (match get_all_descendants py_recursion_limit d1 nid with
                                  | inl e => (inl e, d1)
                                  | inr ds => (inr (length ds, ds), delete_nodes_by_id d1 ds)
                                  end : (exn + (nat * list string)) * db)).(nodes)).
  { intros d1 H1. destruct (get_all_descendants py_recursion_limit d1 nid); simpl;
      [exact H1|].
    eapply depth_invariant_incl; [apply delete_nodes_by_id_incl | exact H1]. }
  destruct (get_node d nid) as [nd|]; [|now apply Hdesc].
  destruct (n_meta nd); [|exact Hinv].
  apply Hdesc, update_node_nodes, Hinv.
Qed.

Lemma create_node_inv : forall d nid content parent score depth meta,
  depth_invariant d.(nodes) ->
  parent <> Some nid ->
  (forall p, In p d.(nodes) -> parent = Some (n_id p) -> depth = n_depth p + 1) ->
  (forall c, In c d.(nodes) -> n_parent_id c = Some nid -> n_depth c = depth + 1) ->
  depth_invariant (snd (create_node d nid content parent score depth meta)).(nodes).
Proof.
  intros d nid content parent score depth meta Hinv Hself Hpar Hch.
  unfold create_node. destruct (existsb _ _); simpl; [exact Hinv|].
  intros c p Hc Hp E.
  apply in_app_or in Hc as [Hc|[<-|[]]]; apply in_app_or in Hp as [Hp|[<-|[]]]; simpl in *.
  - now apply Hinv.
  - now apply Hch.
  - now apply Hpar.
  - contradiction.
Qed.

(** Executable check of [depth_invariant]. *)
Definition depth_invariantb (ns : list node) : bool :=
  forallb (fun c => forallb (fun p =>
      match n_parent_id c with
      | Some q => if String.eqb q (n_id p) then Z.eqb (n_depth c) (n_depth p + 1) else true
      | None => true
      end) ns) ns.

Lemma depth_invariantb_sound : forall ns, depth_invariantb ns = true -> depth_invariant ns.
Proof.
  intros ns H c p Hc Hp E. unfold depth_invariantb in H.
  rewrite forallb_forall in H. specialize (H c Hc). rewrite forallb_forall in H.
  specialize (H p Hp). rewrite E, String.eqb_refl in H. now apply Z.eqb_eq.
Qed.

(** C3 (amended). [create_node] stores the caller-supplied depth without
    comparing it with the parent's, so the invariant depth(child) =
    depth(parent) + 1 is kept only by callers: starting from a store where it
    holds, [update_node], [keep_best_n] and [execute_circuit_break] keep it
    (they never change a depth or a parent link and only delete rows), and
    [create_node] keeps it when the node is not its own parent, the supplied
    depth is one more than the depth of its stored parent, and every stored
    node that already names the new id as parent is one level deeper. *)
Theorem depth_invariant_preserved_given_caller_depth : forall d,
  depth_invariant d.(nodes) ->
  (forall nid content parent score depth meta,
      parent <> Some nid ->
      (forall p, In p d.(nodes) -> parent = Some (n_id p) -> depth = n_depth p + 1) ->
      (forall c, In c d.(nodes) -> n_parent_id c = Some nid -> n_depth c = depth + 1) ->
      depth_invariant (snd (create_node d nid content parent score depth meta)).(nodes))
  /\ (forall nid c s st m, depth_invariant (snd (update_node d nid c s st m)).(nodes))
  /\ (forall n p, depth_invariant (snd (keep_best_n d n p)).(nodes))
  /\ (forall nid reason ts,
        depth_invariant (snd (execute_circuit_break d nid reason ts)).(nodes)).
Proof.
  intros d Hinv. split; [|split; [|split]].
  - intros; now apply create_node_inv.
  - intros; now apply update_node_nodes.
  - intros n p. eapply depth_invariant_incl; [apply keep_best_n_incl | exact Hinv].
  - intros; now apply execute_circuit_break_inv.
Qed.

Lemma depth_invariant_preserved_given_caller_depth_witness :
  let d := scenario_tree in
  (forall nid content parent score depth meta,
      parent <> Some nid ->
      (forall p, In p d.(nodes) -> parent = Some (n_id p) -> depth = n_depth p + 1) ->
      (forall c, In c d.(nodes) -> n_parent_id c = Some nid -> n_depth c = depth + 1) ->
      depth_invariant (snd (create_node d nid content parent score depth meta)).(nodes))
  /\ (forall nid c s st m, depth_invariant (snd (update_node d nid c s st m)).(nodes))
  /\ (forall n p, depth_invariant (snd (keep_best_n d n p)).(nodes))
  /\ (forall nid reason ts,
        depth_invariant (snd (execute_circuit_break d nid reason ts)).(nodes)).
Proof.
  apply depth_invariant_preserved_given_caller_depth.
  apply depth_invariantb_sound. vm_compute. reflexivity.
Defined.

(** C3 counterexample. Under a root R of depth 0, [create_node] accepts a
    child of R with depth 5, and the store then violates
    depth(child) = depth(parent) + 1. *)
Lemma create_node_accepts_wrong_depth :
  let d0 := snd (create_node empty_db "R" "root" None 0 0 None) in
  let r := create_node d0 "c" "child" (Some "R"%string) 5 5 None in
  depth_invariant d0.(nodes) /\ fst r = true /\ ~ depth_invariant (snd r).(nodes).
Proof.
  simpl. split; [|split; [reflexivity|]].
  - apply depth_invariantb_sound. vm_compute. reflexivity.
  - intros H.
    specialize (H (mkNode "c" (Some "R"%string) "child" 5 "pending" 5 0 0 None)
                  (mkNode "R" None "root" 0 "pending" 0 0 0 None)).
    simpl in H. specialize (H (or_intror (or_introl eq_refl)) (or_introl eq_refl) eq_refl).
    discriminate H.
Qed.

(** ** Conflict detection *)

(** [create_facts_from_json] for one fact without overrides: [value_numeric],
    [value_type] and [unit] come from [parse_value] (its float result);
    confidence "Medium". *)
Definition ledger_add (d : db) (session_id entity attribute value : string) : db :=
  let '(numeric, value_type, unit) := parse_value_double value in
  snd (create_fact d session_id entity attribute value value_type numeric unit "Medium").

Definition ledger_of (session_id entity attribute : string) (values : list string) : db :=
  fold_left (fun d v => ledger_add d session_id entity attribute v) values empty_db.

(** The severity rule in the words of the spec: on the ratio (max-min)/max,
    above 20% critical, above 5% moderate, otherwise minor. *)
Definition claimed_severity (ratio : Q) : severity :=
  if negb (Qle_bool ratio (1 # 5)) then Critical
  else if negb (Qle_bool ratio (1 # 20)) then Moderate
  else Minor.

Definition conflict_key (c : conflict) : string * string := (c_entity c, c_attribute c).

Lemma nodup_length_gt1 : forall l : list string,
  (1 < length (nodup string_dec l))%nat <-> exists x y, In x l /\ In y l /\ x <> y.
Proof.
  intros l. split.
  - intros H. pose proof (NoDup_nodup string_dec l) as Hnd.
    destruct (nodup string_dec l) as [|x [|y t]] eqn:E; simpl in H; try lia.
    exists x, y. inversion Hnd as [|? ? Hx _]; subst.
    split; [apply (nodup_In string_dec); rewrite E; now left|].
    split; [apply (nodup_In string_dec); rewrite E; right; now left|].
    intros ->. apply Hx. now left.
  - intros [x [y [Hx [Hy Hxy]]]].
    apply (nodup_In string_dec) in Hx, Hy.
    destruct (nodup string_dec l) as [|z [|w t]]; simpl; try lia.
    + destruct Hx.
    + destruct Hx as [<-|[]]; destruct Hy as [<-|[]]. contradiction.
Qed.

Lemma value_count_gt1 : forall d sid e a,
  (1 < value_count d sid e a)%nat <->
  exists f1 f2, In f1 d.(facts) /\ In f2 d.(facts) /\ in_group sid e a f1 = true
                /\ in_group sid e a f2 = true /\ f_value f1 <> f_value f2.
Proof.
  intros d sid e a. unfold value_count. rewrite nodup_length_gt1. split.
  - intros [x [y [Hx [Hy Hxy]]]].
    apply in_map_iff in Hx as [f1 [<- Hf1]]. apply in_map_iff in Hy as [f2 [<- Hf2]].
    apply filter_In in Hf1, Hf2. exists f1, f2. tauto.
  - intros [f1 [f2 [H1 [H2 [G1 [G2 Hne]]]]]].
    exists (f_value f1), (f_value f2). split; [|split]; auto;
      apply in_map, filter_In; auto.
Qed.

Lemma in_group_key : forall sid e a f,
  in_group sid e a f = true <->
  f_session_id f = sid /\ f_entity f = e /\ f_attribute f = a.
Proof.
  intros sid e a f. unfold in_group.
  rewrite !andb_true_iff, !String.eqb_eq. tauto.
Qed.

Lemma group_keys_in : forall d sid e a,
  In (e, a) (group_keys d sid) <-> exists f, In f d.(facts) /\ in_group sid e a f = true.
Proof.
  intros d sid e a. unfold group_keys. rewrite nodup_In, in_map_iff. split.
  - intros [f [Ef Hf]]. apply filter_In in Hf as [Hf Hs]. exists f. split; auto.
    apply in_group_key. apply String.eqb_eq in Hs. injection Ef; intros; tauto.
  - intros [f [Hf Hg]]. apply in_group_key in Hg as [Hs [He Ha]].
    exists f. split; [now subst|]. apply filter_In. split; auto. now apply String.eqb_eq.
Qed.

Lemma detect_conflicts_keys : forall d sid,
  map conflict_key (detect_conflicts d sid)
  = filter (fun '(e, a) => Nat.ltb 1 (value_count d sid e a)) (group_keys d sid).
Proof.
  intros d sid. unfold detect_conflicts.
  induction (group_keys d sid) as [|[e a] t IH]; simpl; [reflexivity|].
  destruct (Nat.ltb 1 (value_count d sid e a)); simpl; now rewrite IH.
Qed.

Lemma detect_conflicts_shape : forall d sid c,
  In c (detect_conflicts d sid) ->
  c_facts c = sort_by created_asc_fact
                (filter (in_group sid (c_entity c) (c_attribute c)) d.(facts))
  /\ c_severity c = conflict_severity (c_facts c).
Proof.
  intros d sid c Hc. unfold detect_conflicts in Hc.
  apply in_flat_map in Hc as [[e a] [_ Hc]].
  destruct (Nat.ltb 1 (value_count d sid e a)); [|destruct Hc].
  destruct Hc as [<-|[]]. simpl. split; reflexivity.
Qed.

Lemma numeric_values_length : forall gf, (length (numeric_values gf) <= length gf)%nat.
Proof.
  induction gf as [|f t IH]; simpl; [lia|].
  destruct (f_value_numeric f); simpl; lia.
Qed.

Lemma py_max_spec : forall t h,
  In (py_max h t) (h :: t) /\ forall x, In x (h :: t) -> (x <= py_max h t)%Q.
Proof.
  unfold py_max. induction t as [|y t IH]; intros h; simpl.
  - split; [now left|]. intros x [<-|[]]. apply Qle_refl.
  - destruct (Qle_bool y h) eqn:E.
    + destruct (IH h) as [Hin Hge]. split.
      * destruct Hin as [<-|Hin]; [now left | right; now right].
      * intros x [<-|[<-|Hx]].
        -- apply Hge; now left.
        -- apply Qle_bool_iff in E. eapply Qle_trans; [exact E|]. apply Hge; now left.
        -- apply Hge; now right.
    + destruct (IH y) as [Hin Hge]. split.
      * destruct Hin as [<-|Hin]; [right; now left | right; now right].
      * assert (Hhy : (h <= y)%Q).
        { apply Qlt_le_weak, Qnot_le_lt. intros Hle. apply Qle_bool_iff in Hle. congruence. }
        intros x [<-|[<-|Hx]].
        -- eapply Qle_trans; [exact Hhy|]. apply Hge; now left.
        -- apply Hge; now left.
        -- apply Hge; now right.
Qed.

Lemma py_min_spec : forall t h,
  In (py_min h t) (h :: t) /\ forall x, In x (h :: t) -> (py_min h t <= x)%Q.
Proof.
  unfold py_min. induction t as [|y t IH]; intros h; simpl.
  - split; [now left|]. intros x [<-|[]]. apply Qle_refl.
  - destruct (Qle_bool h y) eqn:E.
    + destruct (IH h) as [Hin Hge]. split.
      * destruct Hin as [<-|Hin]; [now left | right; now right].
      * intros x [<-|[<-|Hx]].
        -- apply Hge; now left.
        -- apply Qle_bool_iff in E. eapply Qle_trans; [|exact E]. apply Hge; now left.
        -- apply Hge; now right.
    + destruct (IH y) as [Hin Hge]. split.
      * destruct Hin as [<-|Hin]; [right; now left | right; now right].
      * assert (Hhy : (y <= h)%Q).
        { apply Qlt_le_weak, Qnot_le_lt. intros Hle. apply Qle_bool_iff in Hle. congruence. }
        intros x [<-|[<-|Hx]].
        -- eapply Qle_trans; [|exact Hhy]. apply Hge; now left.
        -- apply Hge; now left.
        -- apply Hge; now right.
Qed.

(** ** Order of doubles *)

Definition lex3 (x y : Z * Z * Z) : comparison :=
  let '(a1, b1, c1) := x in
  let '(a2, b2, c2) := y in
  match Z.compare a1 a2 with
  | Eq => match Z.compare b1 b2 with Eq => Z.compare c1 c2 | o => o end
  | o => o
  end.

Lemma lex3_le : forall a1 b1 c1 a2 b2 c2,
  lex3 (a1, b1, c1) (a2, b2, c2) <> Gt
  <-> a1 < a2 \/ a1 = a2 /\ (b1 < b2 \/ b1 = b2 /\ c1 <= c2).
Proof.
  intros. simpl.
  destruct (Z.compare_spec a1 a2);
    [destruct (Z.compare_spec b1 b2); [destruct (Z.compare_spec c1 c2)| |] | |];
    split; intros; try congruence; lia.
Qed.

Lemma lex3_lt : forall a1 b1 c1 a2 b2 c2,
  lex3 (a1, b1, c1) (a2, b2, c2) = Lt
  <-> a1 < a2 \/ a1 = a2 /\ (b1 < b2 \/ b1 = b2 /\ c1 < c2).
Proof.
  intros. simpl.
  destruct (Z.compare_spec a1 a2);
    [destruct (Z.compare_spec b1 b2); [destruct (Z.compare_spec c1 c2)| |] | |];
    split; intros; try congruence; lia.
Qed.

(** A key ordering the non-NaN values of [spec_float] as [SFcompare] does. *)
Definition sf_key (x : spec_float) : Z * Z * Z :=
  match x with
  | S754_zero _ => (2, 0, 0)
  | S754_infinity s => if s then (0, 0, 0) else (4, 0, 0)
  | S754_nan => (0, 0, 0)
  | S754_finite s m e => if s then (1, - e, Zneg m) else (3, e, Zpos m)
  end.

Lemma sf_key_compare : forall x y, x <> S754_nan -> y <> S754_nan ->
  SFcompare x y = Some (lex3 (sf_key x) (sf_key y)).
Proof.
  intros [sx|sx| |sx mx ex] [sy|sy| |sy my ey] Hx Hy; try congruence;
    try destruct sx; try destruct sy; try reflexivity.
  - simpl. rewrite Z.compare_opp.
    replace (ey ?= ex) with (CompOpp (ex ?= ey)) by (symmetry; apply Z.compare_antisym).
    destruct (ex ?= ey); reflexivity.
Qed.

Definition fkey (x : float) : Z * Z * Z := sf_key (Prim2SF x).
Definition is_num (x : float) : Prop := Prim2SF x <> S754_nan.

Lemma leb_key : forall x y, is_num x -> is_num y ->
  (x <=? y)%float = true <-> lex3 (fkey x) (fkey y) <> Gt.
Proof.
  intros x y Hx Hy. rewrite leb_spec. unfold SFleb, fkey.
  rewrite (sf_key_compare _ _ Hx Hy).
  destruct (lex3 _ _); split; congruence.
Qed.

Lemma ltb_key : forall x y, is_num x -> is_num y ->
  (x <? y)%float = true <-> lex3 (fkey x) (fkey y) = Lt.
Proof.
  intros x y Hx Hy. rewrite ltb_spec. unfold SFltb, fkey.
  rewrite (sf_key_compare _ _ Hx Hy).
  destruct (lex3 _ _); split; congruence.
Qed.

Lemma leb_is_num : forall x y, (x <=? y)%float = true -> is_num x /\ is_num y.
Proof.
  intros x y H. rewrite leb_spec in H. unfold SFleb in H. unfold is_num.
  split; intros E; rewrite E in H; [discriminate|].
  destruct (Prim2SF x); discriminate.
Qed.

Ltac key_destr :=
  repeat match goal with
  | |- context [fkey ?x] =>
      let a := fresh "a" in let b := fresh "b" in let c := fresh "c" in
      destruct (fkey x) as [[a b] c]
  end.

Lemma fle_trans : forall x y z, is_num x -> is_num y -> is_num z ->
  (x <=? y)%float = true -> (y <=? z)%float = true -> (x <=? z)%float = true.
Proof.
  intros x y z Hx Hy Hz. rewrite !leb_key by assumption.
  key_destr. rewrite !lex3_le. lia.
Qed.

Lemma fle_refl : forall x, is_num x -> (x <=? x)%float = true.
Proof. intros x Hx. rewrite leb_key by assumption. key_destr. rewrite lex3_le. lia. Qed.

Lemma flt_fle : forall x y, is_num x -> is_num y ->
  (x <? y)%float = true -> (x <=? y)%float = true.
Proof.
  intros x y Hx Hy. rewrite ltb_key, leb_key by assumption.
  key_destr. rewrite lex3_lt, lex3_le. lia.
Qed.

Lemma not_flt_fle : forall x y, is_num x -> is_num y ->
  (x <? y)%float = false -> (y <=? x)%float = true.
Proof.
  intros x y Hx Hy H. rewrite leb_key by assumption.
  assert (H' : ~ lex3 (fkey x) (fkey y) = Lt) by (rewrite <- ltb_key by assumption; congruence).
  revert H'. key_destr. rewrite lex3_lt, lex3_le. lia.
Qed.

Lemma fle_not_flt : forall x y, is_num x -> is_num y ->
  (x <=? y)%float = true -> (y <? x)%float = false.
Proof.
  intros x y Hx Hy H. apply leb_key in H; [|assumption..].
  destruct (y <? x)%float eqn:E; [|reflexivity].
  apply ltb_key in E; [|assumption..]. revert H E. key_destr. rewrite lex3_lt, lex3_le. lia.
Qed.

Lemma fle_antisym_key : forall x y, is_num x -> is_num y ->
  (x <=? y)%float = true -> (y <=? x)%float = true -> fkey x = fkey y.
Proof.
  intros x y Hx Hy. rewrite !leb_key by assumption. key_destr. rewrite !lex3_le.
  intros. f_equal; [f_equal|]; lia.
Qed.

Lemma py_fmax_spec : forall t h, (forall x, In x (h :: t) -> is_num x) ->
  In (py_fmax h t) (h :: t) /\ forall x, In x (h :: t) -> (x <=? py_fmax h t)%float = true.
Proof.
  unfold py_fmax. induction t as [|y t IH]; intros h Hn; simpl.
  - split; [now left|]. intros x [<-|[]]. apply fle_refl, Hn. now left.
  - assert (Hh : is_num h) by (apply Hn; now left).
    assert (Hy : is_num y) by (apply Hn; right; now left).
    destruct (h <? y)%float eqn:E.
    + destruct (IH y) as [Hin Hge]; [intros x [<-|Hx]; apply Hn; [right; now left | right; now right]|].
      split.
      * destruct Hin as [<-|Hin]; [right; now left | right; now right].
      * intros x [<-|[<-|Hx]].
        -- apply (fle_trans _ y); auto; [| apply flt_fle; auto | apply Hge; now left].
           apply Hn. destruct Hin as [<-|Hin]; [right; now left | right; now right].
        -- apply Hge. now left.
        -- apply Hge. now right.
    + destruct (IH h) as [Hin Hge]; [intros x [<-|Hx]; apply Hn; [now left | right; now right]|].
      split.
      * destruct Hin as [<-|Hin]; [now left | right; now right].
      * intros x [<-|[<-|Hx]].
        -- apply Hge. now left.
        -- apply (fle_trans _ h); auto; [| apply not_flt_fle; auto | apply Hge; now left].
           apply Hn. destruct Hin as [<-|Hin]; [now left | right; now right].
        -- apply Hge. now right.
Qed.

Lemma py_fmin_spec : forall t h, (forall x, In x (h :: t) -> is_num x) ->
  In (py_fmin h t) (h :: t) /\ forall x, In x (h :: t) -> (py_fmin h t <=? x)%float = true.
Proof.
  unfold py_fmin. induction t as [|y t IH]; intros h Hn; simpl.
  - split; [now left|]. intros x [<-|[]]. apply fle_refl, Hn. now left.
  - assert (Hh : is_num h) by (apply Hn; now left).
    assert (Hy : is_num y) by (apply Hn; right; now left).
    destruct (y <? h)%float eqn:E.
    + destruct (IH y) as [Hin Hge]; [intros x [<-|Hx]; apply Hn; [right; now left | right; now right]|].
      split.
      * destruct Hin as [<-|Hin]; [right; now left | right; now right].
      * intros x [<-|[<-|Hx]].
        -- apply (fle_trans _ y); auto; [| apply Hge; now left | apply flt_fle; auto].
           apply Hn. destruct Hin as [<-|Hin]; [right; now left | right; now right].
        -- apply Hge. now left.
        -- apply Hge. now right.
    + destruct (IH h) as [Hin Hge]; [intros x [<-|Hx]; apply Hn; [now left | right; now right]|].
      split.
      * destruct Hin as [<-|Hin]; [now left | right; now right].
      * intros x [<-|[<-|Hx]].
        -- apply Hge. now left.
        -- apply (fle_trans _ h); auto; [| apply Hge; now left | apply not_flt_fle; auto].
           apply Hn. destruct Hin as [<-|Hin]; [now left | right; now right].
        -- apply Hge. now right.
Qed.

(** Doubles with one key are equal, or are both zeros (of either sign). *)
Lemma fkey_eq : forall x y, is_num x -> is_num y -> fkey x = fkey y ->
  x = y \/ (exists sx sy, Prim2SF x = S754_zero sx /\ Prim2SF y = S754_zero sy).
Proof.
  intros x y Hx Hy. unfold fkey, is_num in *. intros H.
  destruct (Prim2SF x) as [sx|sx| |sx mx ex] eqn:Ex; [| |congruence|];
  destruct (Prim2SF y) as [sy|sy| |sy my ey] eqn:Ey; try congruence;
  try (right; eauto; fail);
  try destruct sx; try destruct sy; simpl in H; try discriminate H;
  left; apply Prim2SF_inj; rewrite Ex, Ey; try reflexivity;
  injection H; intros; subst; try reflexivity;
  assert (ex = ey) by lia; now subst.
Qed.

Lemma Prim2SF_zero : Prim2SF 0%float = S754_zero false.
Proof. reflexivity. Qed.

Lemma zero_is_num : is_num 0%float.
Proof. unfold is_num. rewrite Prim2SF_zero. discriminate. Qed.

(** A positive double minus a zero of either sign is that double. *)
Lemma sub_zero_pos : forall x z s, (0 <? x)%float = true -> Prim2SF z = S754_zero s ->
  (x - z)%float = x.
Proof.
  intros x z s Hx Hz. apply Prim2SF_inj. rewrite sub_spec, Hz.
  rewrite ltb_spec, Prim2SF_zero in Hx.
  destruct (Prim2SF x) as [sx|sx| |sx mx ex]; try destruct sx; try discriminate; reflexivity.
Qed.

Lemma zero_not_pos : forall z s, Prim2SF z = S754_zero s -> (0 <? z)%float = false.
Proof. intros z s Hz. rewrite ltb_spec, Prim2SF_zero, Hz. reflexivity. Qed.

Lemma severity_of_max_min_key : forall mx mx' mn mn',
  is_num mx -> is_num mx' -> is_num mn -> is_num mn' ->
  fkey mx = fkey mx' -> fkey mn = fkey mn' ->
  severity_of_max_min mx mn = severity_of_max_min mx' mn'.
Proof.
  intros mx mx' mn mn' H1 H2 H3 H4 Ex En.
  destruct (fkey_eq _ _ H1 H2 Ex) as [<-|[s1 [s2 [Z1 Z2]]]].
  - destruct (fkey_eq _ _ H3 H4 En) as [<-|[s3 [s4 [Z3 Z4]]]]; [reflexivity|].
    unfold severity_of_max_min.
    destruct (0 <? mx)%float eqn:Hp; [|reflexivity].
    rewrite (sub_zero_pos _ _ _ Hp Z3), (sub_zero_pos _ _ _ Hp Z4). reflexivity.
  - unfold severity_of_max_min. rewrite (zero_not_pos _ _ Z1), (zero_not_pos _ _ Z2).
    reflexivity.
Qed.

Lemma numeric_values_num : forall nums mx,
  (forall x, In x nums -> (x <=? mx)%float = true) -> forall x, In x nums -> is_num x.
Proof. intros nums mx H x Hx. exact (proj1 (leb_is_num _ _ (H x Hx))). Qed.

(** With at least two numeric values, the severity is computed from any
    maximum and minimum of them. *)
Lemma conflict_severity_max_min : forall gf h t mx mn,
  numeric_values gf = h :: t -> t <> [] ->
  In mx (h :: t) -> (forall x, In x (h :: t) -> (x <=? mx)%float = true) ->
  In mn (h :: t) -> (forall x, In x (h :: t) -> (mn <=? x)%float = true) ->
  conflict_severity gf = severity_of_max_min mx mn.
Proof.
  intros gf h t mx mn Hnums Ht Hmx Hmxge Hmn Hmnle.
  assert (Hlen : (2 <= length gf)%nat).
  { pose proof (numeric_values_length gf) as L. rewrite Hnums in L.
    destruct t; [contradiction|]. simpl in L. lia. }
  assert (Hnum := numeric_values_num _ _ Hmxge).
  unfold conflict_severity. rewrite Hnums.
  replace (Nat.leb 2 (length gf)) with true by (symmetry; now apply Nat.leb_le).
  replace (Nat.leb 2 (length (h :: t))) with true
    by (symmetry; apply Nat.leb_le; destruct t; [contradiction|]; simpl; lia).
  destruct (py_fmax_spec t h Hnum) as [Hpin Hpge].
  destruct (py_fmin_spec t h Hnum) as [Hqin Hqle].
  apply severity_of_max_min_key; auto.
  - apply fle_antisym_key; auto.
  - apply fle_antisym_key; auto.
Qed.

(** C2 (amended). [detect_conflicts] reports one group per (entity, attribute)
    key of the session, exactly for the keys having two facts with different
    values. A group with fewer than two numeric values is minor; otherwise its
    severity is [severity_of_max_min] of the largest and smallest numeric
    value: minor when the maximum is not above 0, else critical or moderate
    when the double [(max - min) / max * 100], rounded at each operation, is
    above 20 or above 5. The spec's examples: values "10","10" give no
    conflict, "10","15" one group, 100 and 125 moderate, 100 and 10 critical;
    and "$160M","$200M" give critical. *)
Theorem detect_conflicts_groups_and_severity :
  (forall d sid e a,
      In (e, a) (map conflict_key (detect_conflicts d sid)) <->
      exists f1 f2, In f1 d.(facts) /\ In f2 d.(facts)
                    /\ in_group sid e a f1 = true /\ in_group sid e a f2 = true
                    /\ f_value f1 <> f_value f2)
  /\ (forall d sid, NoDup (map conflict_key (detect_conflicts d sid)))
  /\ (forall d sid c, In c (detect_conflicts d sid) ->
        let nums := numeric_values (c_facts c) in
        ((length nums < 2)%nat -> c_severity c = Minor)
        /\ (forall mx mn,
              In mx nums -> (forall x, In x nums -> (x <=? mx)%float = true) ->
              In mn nums -> (forall x, In x nums -> (mn <=? x)%float = true) ->
              (2 <= length nums)%nat ->
              c_severity c = severity_of_max_min mx mn))
  /\ detect_conflicts (ledger_of "S" "E" "A" ["10"; "10"]%string) "S" = []
  /\ map conflict_key (detect_conflicts (ledger_of "S" "E" "A" ["10"; "15"]%string) "S")
     = [("E", "A")]%string
  /\ map c_severity (detect_conflicts (ledger_of "S" "E" "A" ["100"; "125"]%string) "S")
     = [Moderate]
  /\ map c_severity (detect_conflicts (ledger_of "S" "E" "A" ["100"; "10"]%string) "S")
     = [Critical]
  /\ map c_severity (detect_conflicts (ledger_of "S" "E" "A" ["$160M"; "$200M"]%string) "S")
     = [Critical].
Proof.
  split; [|split; [|split]].
  - intros d sid e a. rewrite detect_conflicts_keys, filter_In, Nat.ltb_lt,
      value_count_gt1, group_keys_in. split; [tauto|].
    intros H. split; [|exact H]. destruct H as [f1 [_ [H1 [_ [G1 _]]]]]. eauto.
  - intros d sid. rewrite detect_conflicts_keys. apply NoDup_filter, NoDup_nodup.
  - intros d sid c Hc nums. destruct (detect_conflicts_shape d sid c Hc) as [_ Hsev].
    rewrite Hsev. split.
    + intros Hlt. unfold conflict_severity.
      destruct (Nat.leb 2 (length (c_facts c))); [|reflexivity].
      fold nums. replace (Nat.leb 2 (length nums)) with false
        by (symmetry; apply Nat.leb_gt; lia).
      reflexivity.
    + intros mx mn Hmx Hmxge Hmn Hmnle Hlen.
      destruct nums as [|h t] eqn:En; [simpl in Hlen; lia|].
      assert (t <> []) by (intros ->; simpl in Hlen; lia).
      now apply (conflict_severity_max_min (c_facts c) h t mx mn).
  - vm_compute. repeat split; reflexivity.
Qed.

(** The exact ratio (max-min)/max of two doubles [mn <= mx]. *)
Definition exact_ratio (mn mx : float) : option Q :=
  match F2Q mn, F2Q mx with
  | Some a, Some b => Some ((b - a) / b)%Q
  | _, _ => None
  end.

(** C2 counterexample. The rounding of the float computation decides the
    severity at the 20% boundary, against the rule on the ratio. "$160M" and
    "$200M" are 0.16 and 0.2 billions, whose ratio (0.2-0.16)/0.2 is exactly
    20%, which the rule calls
    moderate, but [detect_conflicts] reports critical (the double is
    20.000000000000004). "6.8" and "8.5" are stored as doubles whose exact
    ratio is above 20%, which the rule calls critical, but
    [detect_conflicts] reports moderate (the double is 20.0). *)
Lemma detect_conflicts_severity_rounding :
  map c_severity (detect_conflicts (ledger_of "S" "E" "A" ["$160M"; "$200M"]%string) "S")
    = [Critical]
  /\ claimed_severity (((2 # 10) - (16 # 100)) / (2 # 10)) = Moderate
  /\ map c_severity (detect_conflicts (ledger_of "S" "E" "A" ["6.8"; "8.5"]%string) "S")
    = [Moderate]
  /\ map f_value_numeric (ledger_of "S" "E" "A" ["6.8"; "8.5"]%string).(facts)
    = [Some (Q2F (68 # 10)); Some (Q2F (85 # 10))]
  /\ option_map claimed_severity (exact_ratio (Q2F (68 # 10)) (Q2F (85 # 10)))
    = Some Critical.
Proof. vm_compute. repeat split; reflexivity. Qed.

(** C10. When the numeric values of a conflicting group have a maximum of
    zero or less, [detect_conflicts] skips the ratio and reports minor. *)
Theorem detect_conflicts_nonpositive_max_minor :
  forall d sid c mx,
    In c (detect_conflicts d sid) ->
    (2 <= length (numeric_values (c_facts c)))%nat ->
    In mx (numeric_values (c_facts c)) ->
    (forall x, In x (numeric_values (c_facts c)) -> (x <=? mx)%float = true) ->
    (mx <=? 0)%float = true ->
    c_severity c = Minor.
Proof.
  intros d sid c mx Hc Hlen Hmx Hmxge Hle.
  destruct (detect_conflicts_shape d sid c Hc) as [_ ->].
  assert (Hnum := numeric_values_num _ _ Hmxge).
  destruct (numeric_values (c_facts c)) as [|h t] eqn:En; [simpl in Hlen; lia|].
  assert (t <> []) by (intros ->; simpl in Hlen; lia).
  destruct (py_fmin_spec t h Hnum) as [Hqin Hqle].
  rewrite (conflict_severity_max_min (c_facts c) h t mx (py_fmin h t)) by auto.
  unfold severity_of_max_min.
  rewrite (fle_not_flt mx 0); [reflexivity | apply Hnum, Hmx | apply zero_is_num | exact Hle].
Qed.

(** Two facts "0" and "0.0" for one key: distinct values, numeric values 0. *)
Definition zero_ledger : db := ledger_of "S" "E" "A" ["0"; "0.0"]%string.

Lemma detect_conflicts_nonpositive_max_minor_witness :
  exists c, In c (detect_conflicts zero_ledger "S") /\ c_severity c = Minor.
Proof.
  eexists. split.
  - vm_compute. left. reflexivity.
  - apply (detect_conflicts_nonpositive_max_minor zero_ledger "S" _ 0%float).
    + vm_compute. left. reflexivity.
    + vm_compute. lia.
    + vm_compute. left. reflexivity.
    + vm_compute. intros x [<-|[<-|[]]]; reflexivity.
    + reflexivity.
Defined.

(** ** Idempotent creators and lookups *)

Lemma find_some_existsb {A} (f : A -> bool) :
  forall l, find f l <> None -> existsb f l = true.
Proof.
  induction l as [|x t IH]; simpl; intros H; [contradiction|].
  destruct (f x); simpl; auto.
Qed.

(** C8. [create_node], [create_session] and [add_entity_alias] return [False]
    (no exception) when the key is already stored, and leave the whole store
    unchanged. *)
Theorem idempotent_creators_return_false_on_existing_key :
  (forall d nid content parent score depth meta,
      get_node d nid <> None ->
      create_node d nid content parent score depth meta = (false, d))
  /\ (forall d sid topic meta,
        In sid (map s_session_id d.(sessions)) -> create_session d sid topic meta = (false, d))
  /\ (forall d canonical alias,
        In alias (map al_alias d.(aliases)) -> add_entity_alias d canonical alias = (false, d)).
Proof.
  split; [|split].
  - intros d nid content parent score depth meta H. unfold create_node.
    apply find_some_existsb in H. unfold get_node in H. now rewrite H.
  - intros d sid topic meta H. unfold create_session.
    apply in_map_iff in H as [s [Es Hs]].
    replace (existsb _ _) with true; [reflexivity|].
    symmetry. apply existsb_exists. exists s. split; [exact Hs|]. subst. apply String.eqb_refl.
  - intros d canonical alias H. unfold add_entity_alias.
    apply in_map_iff in H as [r [Er Hr]].
    replace (existsb _ _) with true; [reflexivity|].
    symmetry. apply existsb_exists. exists r. split; [exact Hr|]. subst. apply String.eqb_refl.
Qed.

(** A store whose connection has already inserted one node. *)
Definition one_node_db : db := snd (create_node empty_db "a" "x" None 0 0 None).

(** C9 (code bug). [get_node] on an absent id gives [None], but [update_node]
    on an absent id returns [True] once the connection has changed any row
    before: it tests [conn.total_changes], the connection-wide counter, not the
    rows of its own UPDATE. Nothing is updated. *)
Theorem update_node_absent_id_reports_true :
  get_node one_node_db "missing" = None
  /\ fst (update_node one_node_db "missing" None (Some 1%Q) None None) = true
  /\ (snd (update_node one_node_db "missing" None (Some 1%Q) None None)).(nodes)
     = one_node_db.(nodes).
Proof. vm_compute. repeat split. Qed.

(** ** Co-occurrence *)

Lemma find_map_same {A} (f : A -> bool) (g : A -> A) :
  (forall x, f (g x) = f x) ->
  forall l, find f (map g l) = option_map g (find f l).
Proof.
  intros Hg. induction l as [|x t IH]; simpl; [reflexivity|].
  rewrite Hg. destruct (f x); [reflexivity | exact IH].
Qed.

Lemma find_app_none {A} (f : A -> bool) :
  forall l x, find f l = None -> f x = true -> find f (l ++ [x]) = Some x.
Proof.
  induction l as [|y t IH]; intros x Hn Hx; simpl in *; [now rewrite Hx|].
  destruct (f y); [discriminate | now apply IH].
Qed.

Lemma find_some_true {A} (f : A -> bool) :
  forall l x, find f l = Some x -> f x = true.
Proof.
  induction l as [|y t IH]; intros x H; simpl in H; [discriminate|].
  destruct (f y) eqn:E; [now injection H as <- | now apply IH].
Qed.

Lemma py_slice_last10_length : forall (l : list string),
  (length (py_slice_from l (-10)) <= 10)%nat.
Proof.
  intros l. unfold py_slice_from. rewrite length_skipn.
  replace (-10 <? 0) with true by reflexivity. lia.
Qed.

Lemma cooc_pair_order : forall a b,
  (if Nat.ltb b a then (b, a) else (a, b)) = (Nat.min a b, Nat.max a b).
Proof.
  intros a b. destruct (Nat.ltb b a) eqn:E.
  - apply Nat.ltb_lt in E. f_equal; lia.
  - apply Nat.ltb_ge in E. f_equal; lia.
Qed.

(** The stored row of an unordered pair, looked up as [record_cooccurrence]
    does. *)
Definition cooc_row_of (d : db) (a b : nat) : option cooc_row :=
  find (fun r => Nat.eqb r.(co_entity_a_id) a && Nat.eqb r.(co_entity_b_id) b)
       d.(cooccurrences).

(** C7. [record_cooccurrence a b ctx] and [record_cooccurrence b a ctx] have the
    same effect; both update the row of (min a b, max a b): its counter grows
    by exactly one (from 0 when the row is new) and it keeps the last at most
    10 snippets of the old ones followed by [ctx]. *)
Theorem record_cooccurrence_canonical_row :
  forall d a b ctx,
    record_cooccurrence d a b ctx = record_cooccurrence d b a ctx
    /\ exists r,
         cooc_row_of (record_cooccurrence d a b ctx) (Nat.min a b) (Nat.max a b) = Some r
         /\ co_count r = S (match cooc_row_of d (Nat.min a b) (Nat.max a b) with
                            | Some r0 => co_count r0 | None => 0%nat end)
         /\ co_context_snippets r
            = py_slice_from ((match cooc_row_of d (Nat.min a b) (Nat.max a b) with
                              | Some r0 => co_context_snippets r0 | None => [] end)
                             ++ [ctx]) (-10)
         /\ (length (co_context_snippets r) <= 10)%nat.
Proof.
  intros d a b ctx. split.
  - unfold record_cooccurrence. rewrite !cooc_pair_order.
    rewrite Nat.min_comm, Nat.max_comm. reflexivity.
  - unfold record_cooccurrence, cooc_row_of. rewrite cooc_pair_order.
    set (lo := Nat.min a b). set (hi := Nat.max a b).
    set (P := fun r : cooc_row => Nat.eqb r.(co_entity_a_id) lo && Nat.eqb r.(co_entity_b_id) hi).
    destruct (find P d.(cooccurrences)) as [ex|] eqn:Ef; simpl.
    + rewrite find_map_same.
      2:{ intros x. destruct (Nat.eqb (co_id x) (co_id ex)); reflexivity. }
      rewrite Ef. simpl. rewrite Nat.eqb_refl. eexists. split; [reflexivity|].
      simpl. split; [reflexivity|]. split; [reflexivity|]. apply py_slice_last10_length.
    + rewrite find_app_none; [|exact Ef|].
      * eexists. split; [reflexivity|]. simpl. split; [reflexivity|].
        split; [reflexivity|]. simpl. lia.
      * unfold P. simpl. rewrite !Nat.eqb_refl. reflexivity.
Qed.

(** ** Entities and aliases *)

Lemma existsb_false_find {A} (f : A -> bool) :
  forall l, existsb f l = false -> find f l = None.
Proof.
  induction l as [|x t IH]; simpl; intros H; [reflexivity|].
  destruct (f x); [discriminate | now apply IH].
Qed.

Lemma existsb_true_find {A} (f : A -> bool) :
  forall l, existsb f l = true -> exists y, find f l = Some y.
Proof.
  induction l as [|x t IH]; simpl; intros H; [discriminate|].
  destruct (f x); [eauto | now apply IH].
Qed.

Lemma create_entity_aliases : forall d sid n et desc,
  (snd (create_entity d sid n et desc)).(aliases) = d.(aliases).
Proof.
  intros. unfold create_entity. destruct (find _ _); reflexivity.
Qed.

Lemma create_entity_aliases_canonical : forall d sid n et desc,
  get_canonical_name (snd (create_entity d sid n et desc)) n = get_canonical_name d n.
Proof. intros. unfold get_canonical_name. now rewrite create_entity_aliases. Qed.

Lemma add_entity_alias_entities : forall d a b,
  (snd (add_entity_alias d a b)).(entities) = d.(entities).
Proof.
  intros. unfold add_entity_alias. destruct (existsb _ _); reflexivity.
Qed.

Lemma get_canonical_name_unaliased : forall d a,
  (forall r, In r d.(aliases) -> al_alias r <> a) -> get_canonical_name d a = a.
Proof.
  intros d a H. unfold get_canonical_name.
  destruct (find _ _) as [r|] eqn:Ef; [|reflexivity].
  exfalso. apply (H r); [now apply find_some in Ef|].
  apply find_some in Ef as [_ E]. now apply String.eqb_eq.
Qed.

Lemma add_alias_resolves : forall d a b,
  (forall r, In r d.(aliases) -> al_alias r = b -> al_canonical_name r = a) ->
  get_canonical_name (snd (add_entity_alias d a b)) b = a.
Proof.
  intros d a b H. unfold add_entity_alias.
  destruct (existsb (fun r => String.eqb r.(al_alias) b) d.(aliases)) eqn:E; simpl.
  - unfold get_canonical_name. apply existsb_true_find in E as [r Er]. rewrite Er.
    apply find_some in Er as [Hr Eb]. apply H; [exact Hr|]. now apply String.eqb_eq.
  - unfold get_canonical_name. simpl.
    rewrite find_app_none; [reflexivity | now apply existsb_false_find |].
    apply String.eqb_refl.
Qed.

Lemma create_entity_find : forall d sid n et desc,
  let canonical := get_canonical_name d n in
  find (fun e => String.eqb e.(e_session_id) sid && String.eqb e.(e_name) canonical)
       (snd (create_entity d sid n et desc)).(entities)
  = Some (match find (fun e => String.eqb e.(e_session_id) sid
                               && String.eqb e.(e_name) canonical) d.(entities) with
          | Some e => e
          | None => mkEntity (S d.(seq_entities)) sid canonical et desc
          end)
  /\ fst (create_entity d sid n et desc)
     = e_id (match find (fun e => String.eqb e.(e_session_id) sid
                                  && String.eqb e.(e_name) canonical) d.(entities) with
             | Some e => e
             | None => mkEntity (S d.(seq_entities)) sid canonical et desc
             end).
Proof.
  intros d sid n et desc canonical. unfold create_entity. fold canonical.
  destruct (find _ d.(entities)) as [e|] eqn:Ef; simpl.
  - now rewrite Ef.
  - rewrite find_app_none; [split; reflexivity | exact Ef |].
    simpl. rewrite !String.eqb_refl. reflexivity.
Qed.

(** C6 (amended). [create_entity] maps the name to its canonical name by one
    lookup in the global alias table. When the session already has an
    entity with that canonical name, it returns that entity's id and changes
    nothing; otherwise it appends one new entity with the canonical name and
    returns its id. Consequently a second call with the same name returns
    the same id and changes nothing, whatever the alias table holds.
    Moreover [create_entity a], then [add_entity_alias a b], then
    [create_entity b] in one session return the same id whenever [a] is not
    itself stored as an alias and [b] is not stored as an alias of a name
    other than [a]. *)
Theorem create_entity_idempotent_under_alias :
  (forall d sid n et desc,
     let canonical := get_canonical_name d n in
     let r := create_entity d sid n et desc in
     ((exists e, In e d.(entities) /\ e_session_id e = sid /\ e_name e = canonical) ->
        snd r = d
        /\ exists e, In e d.(entities) /\ e_id e = fst r
                     /\ e_session_id e = sid /\ e_name e = canonical)
     /\ ((forall e, In e d.(entities) -> e_session_id e = sid -> e_name e <> canonical) ->
        (snd r).(entities) = d.(entities) ++ [mkEntity (fst r) sid canonical et desc]))
  /\ (forall d sid n et desc et' desc',
        let r1 := create_entity d sid n et desc in
        create_entity (snd r1) sid n et' desc' = (fst r1, snd r1))
  /\ (forall d sid a b et desc et' desc',
        (forall r, In r d.(aliases) -> al_alias r <> a) ->
        (forall r, In r d.(aliases) -> al_alias r = b -> al_canonical_name r = a) ->
        let r1 := create_entity d sid a et desc in
        fst (create_entity (snd (add_entity_alias (snd r1) a b)) sid b et' desc') = fst r1).
Proof.
  split; [|split].
  - intros d sid n et desc canonical r. unfold r, create_entity. fold canonical.
    split.
    + intros [e0 [He0 [Hs0 Hn0]]].
      destruct (find _ d.(entities)) as [e|] eqn:Ef.
      * apply find_some in Ef as [He Ee]. apply andb_true_iff in Ee as [Es En].
        apply String.eqb_eq in Es, En. simpl. split; [reflexivity|]. eauto.
      * exfalso. eapply find_none in Ef; [|exact He0]. simpl in Ef.
        rewrite Hs0, Hn0, !String.eqb_refl in Ef. discriminate.
    + intros Hnone.
      destruct (find _ d.(entities)) as [e|] eqn:Ef; [|reflexivity].
      exfalso. apply find_some in Ef as [He Ee]. apply andb_true_iff in Ee as [Es En].
      apply String.eqb_eq in Es, En. exact (Hnone e He Es En).
  - intros d sid n et desc et' desc' r1.
    destruct (create_entity_find d sid n et desc) as [Hfind Hid]. fold r1 in Hfind, Hid.
    assert (Hc : get_canonical_name (snd r1) n = get_canonical_name d n)
      by apply create_entity_aliases_canonical.
    unfold create_entity at 1. rewrite Hc, Hfind, Hid. reflexivity.
  - intros d sid a b et desc et' desc' Ha Hb r1.
    assert (Hca : get_canonical_name d a = a) by now apply get_canonical_name_unaliased.
    destruct (create_entity_find d sid a et desc) as [Hfind Hid].
    fold r1 in Hfind, Hid. rewrite Hca in Hfind, Hid.
    unfold create_entity at 1.
    replace (get_canonical_name (snd (add_entity_alias (snd r1) a b)) b) with a.
    2:{ symmetry. apply add_alias_resolves.
        unfold r1. now rewrite create_entity_aliases. }
    rewrite add_entity_alias_entities, Hfind. simpl. now rewrite Hid.
Qed.

Lemma create_entity_idempotent_under_alias_witness :
  let r1 := create_entity empty_db "S" "OpenAI" None None in
  fst (create_entity (snd (add_entity_alias (snd r1) "OpenAI" "Open AI"))
                     "S" "Open AI" None None) = fst r1.
Proof.
  apply (proj2 (proj2 create_entity_idempotent_under_alias) empty_db "S"%string
           "OpenAI"%string "Open AI"%string);
    intros r [].
Defined.

(** A global alias table in which "Open AI" already names another company
    (aliases are shared by all sessions). *)
Definition alias_taken_db : db := snd (add_entity_alias empty_db "Microsoft" "Open AI").

(** C6 counterexample. With "Open AI" already an alias of "Microsoft",
    [create_entity "OpenAI"], [add_entity_alias "OpenAI" "Open AI"] (which
    returns [False]) and [create_entity "Open AI"] return two different ids. *)
Lemma create_entity_alias_taken_differs :
  let r1 := create_entity alias_taken_db "S" "OpenAI" None None in
  let r2 := add_entity_alias (snd r1) "OpenAI" "Open AI" in
  let r3 := create_entity (snd r2) "S" "Open AI" None None in
  fst r2 = false /\ fst r3 <> fst r1.
Proof. vm_compute. split; [reflexivity | discriminate]. Qed.

(** ** Circuit breaking *)

Lemma forallb_map_comp {A B} (f : A -> B) (p : B -> bool) :
  forall l, forallb p (map f l) = forallb (fun x => p (f x)) l.
Proof. induction l as [|x t IH]; simpl; [reflexivity|]. now rewrite IH. Qed.

Lemma py_slice_from_neg {A} (l : list A) (k : Z) :
  1 <= k -> k <= Z.of_nat (length l) ->
  py_slice_from l (- k) = skipn (length l - Z.to_nat k) l.
Proof.
  intros H1 H2. unfold py_slice_from.
  replace (- k <? 0) with true by (symmetry; apply Z.ltb_lt; lia).
  f_equal. lia.
Qed.

(** For a positive threshold [check_circuit_break] reads the last [k] children
    in creation order: it breaks exactly when all their scores are below the
    threshold, and reports their ids and mean score. *)
Lemma check_circuit_break_on_positive_threshold :
  forall children k thr, 1 <= k ->
    let n := length children in
    let recent := skipn (n - Z.to_nat k) (sort_by created_asc children) in
    let scores := map n_score recent in
    let avg := (py_sum scores / inject_Z (Z.of_nat (length recent)))%Q in
    (Z.of_nat n < k ->
       check_circuit_break_on children k thr = inr (CBInsufficientData n))
    /\ (k <= Z.of_nat n ->
       length recent = Z.to_nat k
       /\ check_circuit_break_on children k thr
          = inr (if forallb (fun nd => negb (Qle_bool thr nd.(n_score))) recent
                 then CBBreak k scores avg thr (map n_id recent)
                 else CBScoresAcceptable scores avg)).
Proof.
  intros children k thr Hk n recent scores avg.
  assert (Hlen : length (sort_by created_asc children) = n)
    by (apply Permutation_length, sort_by_perm).
  split; intros H; unfold check_circuit_break_on; fold n.
  - now replace (Z.of_nat n <? k) with true by (symmetry; apply Z.ltb_lt; lia).
  - replace (Z.of_nat n <? k) with false by (symmetry; apply Z.ltb_ge; lia).
    rewrite py_slice_from_neg by lia. rewrite Hlen. fold recent.
    assert (Hr : length recent = Z.to_nat k)
      by (unfold recent; rewrite length_skipn, Hlen; lia).
    split; [exact Hr|].
    rewrite forallb_map_comp. fold scores.
    assert (Hm : py_mean scores = inr avg).
    { unfold avg, scores. rewrite <- (length_map n_score recent).
      destruct (map n_score recent) eqn:Es; [|reflexivity].
      exfalso. apply (f_equal (@length Q)) in Es. rewrite length_map in Es.
      simpl in Es. lia. }
    rewrite Hm. destruct (forallb _ recent); reflexivity.
Qed.

(** The store of the failing input: a root "r" with one child of score 9. *)
Definition one_child_tree : db :=
  let d := snd (create_node empty_db "r" "root" None 0 0 None) in
  snd (create_node d "c" "child" (Some "r"%string) 9 1 None).

(** C4 (divergence at [consecutive_threshold = 0]). [children_sorted[-0:]] is
    the whole list, not an empty window: with one child of score 9 and score
    threshold 5 the node is not reported insufficient and the zero most recent
    children (vacuously all below 5) do not break; the result reads all
    children. With no child at all the mean of the empty window raises
    [ZeroDivisionError]. *)
Theorem check_circuit_break_zero_threshold_slice :
  check_circuit_break one_child_tree "r" 0 5 = inr (CBScoresAcceptable [9%Q] (9 # 1))
  /\ cb_should_break (CBScoresAcceptable [9%Q] (9 # 1)) = false
  /\ check_circuit_break one_child_tree "c" 0 5 = inl ZeroDivisionError.
Proof. vm_compute. repeat split. Qed.

(** ** Fact value parser *)

(** [parse_value s] is [(numeric, value_type, unit)] with [numeric] equal to
    [q] as a rational. *)
Definition parses_to (s : string) (q : Q) (ty : string) (u : option string) : bool :=
  match parse_value s with
  | (Some x, t, u') => Qeq_bool x q && String.eqb t ty && opt_str_eqb u' u
  | _ => false
  end.

Lemma parse_value_fallback_text : forall value,
  let v := py_strip (chars value) in
  match_currency v = None -> match_percentage v = None ->
  match_date_iso v || match_date_year v || match_date_verbose v = false ->
  match_plain v = None ->
  parse_value value = (None, "text"%string, None).
Proof.
  intros value v Hc Hp Hd Hpl. unfold parse_value. fold v.
  now rewrite Hc, Hp, Hd, Hpl.
Qed.

(** C5 (divergence on the T/trillion suffix). The B, M and K examples are
    normalised to billions, but ["2T"] parses to 2 (unit "USD trillion"), not
    2000: the first test [multiplier >= 1e9] also catches [1e12], so the
    branch [multiplier == 1e12] that multiplies by 1000 is never reached. A
    string that matches none of the currency, percentage, date and plain-number
    patterns parses to [(None, "text", None)]. *)
Theorem parse_value_trillion_not_normalised :
  (parses_to "$22.4B" (224 # 10) "currency" (Some "USD billion"%string) = true
   /\ parses_to "500M" (1 # 2) "currency" (Some "USD million"%string) = true
   /\ parses_to "3K" (3 # 1000000) "currency" (Some "USD thousand"%string) = true
   /\ parses_to "2T" 2 "currency" (Some "USD trillion"%string) = true
   /\ parses_to "2T" 2000 "currency" (Some "USD trillion"%string) = false
   /\ parse_value "N/A" = (None, "text"%string, None))
  /\ (forall value,
        let v := py_strip (chars value) in
        match_currency v = None -> match_percentage v = None ->
        match_date_iso v || match_date_year v || match_date_verbose v = false ->
        match_plain v = None ->
        parse_value value = (None, "text"%string, None)).
Proof.
  split.
  - vm_compute. repeat split.
  - exact parse_value_fallback_text.
Qed.

(** * Further properties of the node store *)

(** ** Pruning and ranking *)

(** [prune_low_score_nodes] keeps exactly the nodes scoring at least the
    threshold, in their order, and reports how many it removed. *)
Theorem prune_low_score_nodes_keeps_at_least_threshold : forall d threshold,
  let '(count, d') := prune_low_score_nodes d threshold in
  d'.(nodes) = filter (fun nd => Qle_bool threshold nd.(n_score)) d.(nodes)
  /\ (forall nd, In nd d'.(nodes) -> threshold <= nd.(n_score))%Q
  /\ (count + length d'.(nodes) = length d.(nodes))%nat.
Proof.
  intros d thr. unfold prune_low_score_nodes. simpl.
  assert (Hf : filter (fun nd => negb (negb (Qle_bool thr (n_score nd)))) (nodes d)
               = filter (fun nd => Qle_bool thr (n_score nd)) (nodes d)).
  { apply filter_ext. intros a. apply negb_involutive. }
  rewrite Hf. repeat split.
  - intros nd Hnd. apply filter_In in Hnd as [_ H]. now apply Qle_bool_iff.
  - clear Hf. induction (nodes d) as [|x t IH]; simpl; [reflexivity|].
    destruct (Qle_bool thr (n_score x)); simpl; lia.
Qed.

Lemma score_desc_created_asc_total : forall a b,
  score_desc_created_asc a b = false -> score_desc_created_asc b a = true.
Proof.
  unfold score_desc_created_asc. intros a b H.
  destruct (Qle_bool (n_score b) (n_score a)) eqn:E1; simpl in H.
  - apply orb_false_iff in H as [H1 H2]. apply negb_false_iff in H1.
    apply Qeq_bool_iff in H1. apply Nat.leb_gt in H2.
    assert (Hba : Qle_bool (n_score a) (n_score b) = true)
      by (apply Qle_bool_iff; rewrite H1; apply Qle_refl).
    rewrite Hba. simpl.
    assert (Hq : Qeq_bool (n_score b) (n_score a) = true)
      by (apply Qeq_bool_iff; now symmetry).
    rewrite Hq. simpl. apply Nat.leb_le. lia.
  - assert (Hlt : (n_score a < n_score b)%Q).
    { apply Qnot_le_lt. intros Hle. apply Qle_bool_iff in Hle. congruence. }
    assert (Hba : Qle_bool (n_score a) (n_score b) = true)
      by (apply Qle_bool_iff; now apply Qlt_le_weak).
    rewrite Hba. simpl.
    assert (Hq : Qeq_bool (n_score b) (n_score a) = false).
    { apply not_true_iff_false. intros Hq. apply Qeq_bool_iff in Hq.
      rewrite Hq in Hlt. now apply Qlt_irrefl in Hlt. }
    now rewrite Hq.
Qed.

Lemma score_desc_created_asc_score : forall a b,
  score_desc_created_asc a b = true -> (n_score b <= n_score a)%Q.
Proof.
  unfold score_desc_created_asc. intros a b H.
  apply andb_prop in H as [H _]. now apply Qle_bool_iff.
Qed.

Lemma Sorted_weaken {A} (R R' : A -> A -> Prop) :
  (forall a b, R a b -> R' a b) -> forall l, Sorted R l -> Sorted R' l.
Proof.
  intros HR l Hs. induction Hs as [|x l Hs IH Hhd]; constructor; [exact IH|].
  destruct Hhd; constructor. now apply HR.
Qed.

Definition score_ge (a b : node) : Prop := (n_score b <= n_score a)%Q.

Lemma score_ge_trans : Transitive score_ge.
Proof. unfold score_ge. intros a b c H1 H2. eapply Qle_trans; eauto. Qed.

Lemma sort_by_score_strongly_sorted : forall l,
  StronglySorted score_ge (sort_by score_desc_created_asc l).
Proof.
  intros l. apply Sorted_StronglySorted; [apply score_ge_trans|].
  eapply Sorted_weaken; [apply score_desc_created_asc_score|].
  apply sort_by_sorted, score_desc_created_asc_total.
Qed.

Lemma in_firstn_in {A} (n : nat) (l : list A) (x : A) : In x (firstn n l) -> In x l.
Proof. intros H. rewrite <- (firstn_skipn n l). apply in_or_app. now left. Qed.

Lemma StronglySorted_app_l {A} (R : A -> A -> Prop) :
  forall l1 l2, StronglySorted R (l1 ++ l2) -> StronglySorted R l1.
Proof.
  induction l1 as [|x t IH]; intros l2 H; [constructor|].
  simpl in H. apply StronglySorted_inv in H as [H Hall]. constructor; [eapply IH; eauto|].
  rewrite Forall_forall in *. intros y Hy. apply Hall, in_or_app; now left.
Qed.

(** [get_top_nodes(limit, min_score)] with [limit >= 0] returns
    [min(limit, k)] nodes, where [k] counts the nodes scoring at least
    [min_score]; the result is ordered by descending score, and every
    qualifying node left out scores no higher than any node returned. *)
Theorem get_top_nodes_returns_best_qualifying : forall d limit min_score,
  0 <= limit ->
  let qualifying := filter (fun nd => Qle_bool min_score nd.(n_score)) d.(nodes) in
  let top := get_top_nodes d limit min_score in
  length top = Nat.min (Z.to_nat limit) (length qualifying)
  /\ (forall nd, In nd top -> In nd d.(nodes) /\ (min_score <= nd.(n_score))%Q)
  /\ Sorted score_ge top
  /\ exists rest, Permutation (top ++ rest) qualifying
                  /\ forall a b, In a top -> In b rest -> (n_score b <= n_score a)%Q.
Proof.
  intros d limit ms Hl qualifying top.
  set (sorted := sort_by score_desc_created_asc qualifying).
  assert (Hperm : Permutation sorted qualifying) by apply sort_by_perm.
  assert (Htop : top = firstn (Z.to_nat limit) sorted).
  { unfold top, get_top_nodes, sql_limit. fold qualifying. fold sorted.
    now replace (limit <? 0) with false by (symmetry; apply Z.ltb_ge; lia). }
  assert (Hss : StronglySorted score_ge (top ++ skipn (Z.to_nat limit) sorted)).
  { rewrite Htop, firstn_skipn. apply sort_by_score_strongly_sorted. }
  split; [|split; [|split]].
  - rewrite Htop, length_firstn. now rewrite (Permutation_length Hperm).
  - intros nd Hnd. rewrite Htop in Hnd. apply in_firstn_in in Hnd.
    apply (Permutation_in _ Hperm) in Hnd. apply filter_In in Hnd as [Hnd H].
    split; [exact Hnd | now apply Qle_bool_iff].
  - apply StronglySorted_Sorted. eapply StronglySorted_app_l; eauto.
  - exists (skipn (Z.to_nat limit) sorted). split.
    + rewrite Htop, firstn_skipn. exact Hperm.
    + intros a b Ha Hb. exact (StronglySorted_app_rel _ _ _ _ _ Hss Ha Hb).
Qed.

Lemma get_top_nodes_returns_best_qualifying_witness :
  let d := snd (create_node (snd (create_node empty_db "a" "alpha" None 7 0 None))
                            "b" "beta" None 3 0 None) in
  0 <= 1 /\ length (get_top_nodes d 1 0) = Nat.min (Z.to_nat 1)
              (length (filter (fun nd => Qle_bool 0 nd.(n_score)) d.(nodes))).
Proof.
  split; [lia|].
  exact (proj1 (get_top_nodes_returns_best_qualifying _ 1 0 ltac:(lia))).
Defined.

(** ** Keyword search ([query_nodes]) *)

(** A keyword without the LIKE wildcards [%] and [_]. *)
Definition no_wildcard (k : list ascii) : bool :=
  forallb (fun c => negb (Ascii.eqb c "%") && negb (Ascii.eqb c "_")) k.

Lemma sql_like_star_nil : forall p, sql_like ("%"%char :: p) [] = sql_like p [].
Proof. intros p. simpl. now rewrite orb_false_r. Qed.

Lemma sql_like_star_cons : forall p x s,
  sql_like ("%"%char :: p) (x :: s) = sql_like p (x :: s) || sql_like ("%"%char :: p) s.
Proof. reflexivity. Qed.

Lemma sql_like_star : forall p s,
  sql_like ("%"%char :: p) s = true <-> exists s1 s2, s = s1 ++ s2 /\ sql_like p s2 = true.
Proof.
  intros p s. induction s as [|x s IH].
  - rewrite sql_like_star_nil. split.
    + intros H. now exists [], [].
    + intros [s1 [s2 [E H]]]. symmetry in E. apply app_eq_nil in E as [-> ->]. exact H.
  - rewrite sql_like_star_cons, orb_true_iff, IH. split.
    + intros [H | [s1 [s2 [-> H]]]].
      * now exists [], (x :: s).
      * now exists (x :: s1), s2.
    + intros [[|y s1] [s2 [E H]]].
      * left. simpl in E. now subst.
      * right. injection E as <- ->. now exists s1, s2.
Qed.

Lemma sql_like_literal : forall k q s,
  no_wildcard k = true ->
  sql_like (k ++ q) s = true
  <-> exists s1 s2, s = s1 ++ s2 /\ map to_upper s1 = map to_upper k /\ sql_like q s2 = true.
Proof.
  induction k as [|c k IH]; intros q s Hk.
  - simpl. split.
    + intros H. now exists [], s.
    + now intros [[|y s1] [s2 [-> [E H]]]].
  - simpl in Hk. apply andb_prop in Hk as [Hc Hk].
    apply andb_prop in Hc as [Hp Hu]. apply negb_true_iff in Hp, Hu.
    destruct s as [|x s].
    + simpl. rewrite Hp. split; [discriminate|].
      intros [[|y s1] [s2 [E [E2 _]]]]; [discriminate | discriminate].
    + simpl. rewrite Hp, Hu. simpl. rewrite andb_true_iff, IH by exact Hk. split.
      * intros [Ec [s1 [s2 [-> [E H]]]]]. exists (x :: s1), s2.
        apply Ascii.eqb_eq in Ec. simpl. rewrite E, Ec. auto.
      * intros [[|y s1] [s2 [E [E2 H]]]]; [discriminate|].
        injection E as <- ->. injection E2 as Ec E2.
        split; [rewrite Ec; apply Ascii.eqb_refl | now exists s1, s2].
Qed.

Lemma sql_like_pct : forall s, sql_like ["%"%char] s = true.
Proof.
  induction s as [|x s IH]; [reflexivity|].
  rewrite sql_like_star_cons, IH. apply orb_true_r.
Qed.

Lemma chars_append : forall a b, chars (String.append a b) = chars a ++ chars b.
Proof. unfold chars. induction a as [|c a IH]; intros b; simpl; [reflexivity|]. now rewrite IH. Qed.

(** [content LIKE '%k%'] for a keyword free of wildcards: [k] occurs in the
    content, ASCII case ignored. *)
Lemma sql_like_contains : forall k s,
  no_wildcard k = true ->
  sql_like ("%"%char :: k ++ ["%"%char]) s = true
  <-> exists pre mid post, s = pre ++ mid ++ post /\ map to_upper mid = map to_upper k.
Proof.
  intros k s Hk. rewrite sql_like_star. split.
  - intros [pre [r [-> H]]]. apply sql_like_literal in H as [mid [post [-> [E _]]]]; [|exact Hk].
    now exists pre, mid, post.
  - intros [pre [mid [post [-> E]]]]. exists pre, (mid ++ post). split; [reflexivity|].
    apply sql_like_literal; [exact Hk|]. exists mid, post. auto using sql_like_pct.
Qed.

(** [query_nodes(keyword=k)] for a non-empty keyword free of the LIKE
    wildcards [%] and [_] returns only nodes whose content contains [k] up to
    ASCII case, and with no limit ([limit < 0]) it returns all of them. *)
Theorem query_nodes_keyword_is_substring : forall d k nd,
  k <> ""%string -> no_wildcard (chars k) = true ->
  let contains := exists pre mid post,
      chars nd.(n_content) = pre ++ mid ++ post /\ map to_upper mid = map to_upper (chars k) in
  (forall limit, In nd (query_nodes d (Some k) None None limit) -> In nd d.(nodes) /\ contains)
  /\ (In nd d.(nodes) -> contains -> In nd (query_nodes d (Some k) None None (-1))).
Proof.
  intros d k nd Hne Hk contains.
  assert (Ht : py_truthy_str (Some k) = Some k).
  { simpl. destruct (String.eqb k "") eqn:E; [|reflexivity].
    apply String.eqb_eq in E. contradiction. }
  assert (Hpat : chars (String.append "%" (String.append k "%"))
                 = "%"%char :: chars k ++ ["%"%char]).
  { now rewrite chars_append, chars_append. }
  assert (Hin : forall l, In nd (filter (fun nd0 =>
              match py_truthy_str (Some k) with
              | Some k0 => sql_like (chars (String.append "%" (String.append k0 "%")))
                             (chars (n_content nd0))
              | None => true
              end && true && true) l) <-> In nd l /\ contains).
  { intros l. rewrite filter_In, Ht, Hpat, !andb_true_r, sql_like_contains by exact Hk.
    reflexivity. }
  unfold query_nodes. simpl py_truthy_str at 2. split.
  - intros limit H. unfold sql_limit in H.
    destruct (limit <? 0); [|apply in_firstn_in in H];
      apply (Permutation_in _ (sort_by_perm _ _)) in H; now apply Hin.
  - intros H1 H2. unfold sql_limit. simpl.
    apply (Permutation_in _ (Permutation_sym (sort_by_perm _ _))). now apply Hin.
Qed.

Lemma query_nodes_keyword_is_substring_witness :
  In (mkNode "a" None "Market Growth" 7 "pending" 0 0 0 None)
     (query_nodes (snd (create_node empty_db "a" "Market Growth" None 7 0 None))
                  (Some "growth"%string) None None (-1)).
Proof.
  apply (proj2 (query_nodes_keyword_is_substring _ "growth" _ ltac:(discriminate)
                  ltac:(reflexivity))).
  - simpl. now left.
  - exists (chars "Market "), (chars "Growth"), []. split; reflexivity.
Defined.

(** ** Descendants, circuit breaking and branch health *)

(** The loop over the children inside [get_all_descendants]. *)
Fixpoint desc_go (f : nat) (d : db) (cs : list node) : exn + list string :=
  match cs with
  | [] => inr []
  | c :: rest =>
      match get_all_descendants f d c.(n_id) with
      | inl e => inl e
      | inr ds =>
          match desc_go f d rest with
          | inl e => inl e
          | inr rs => inr (c.(n_id) :: ds ++ rs)
          end
      end
  end.

Lemma get_all_descendants_S : forall f d x,
  get_all_descendants (S f) d x = desc_go f d (get_children d x).
Proof.
  intros f d x. simpl. induction (get_children d x) as [|c cs IH]; simpl; [reflexivity|].
  now rewrite IH.
Qed.

Lemma opt_str_eqb_some : forall o x, opt_str_eqb o (Some x) = true <-> o = Some x.
Proof.
  intros [y|] x; simpl; split; try discriminate.
  - intros H. apply String.eqb_eq in H. now subst.
  - intros H. injection H as ->. apply String.eqb_refl.
Qed.

Lemma get_children_spec : forall d x c,
  In c (get_children d x) <-> In c d.(nodes) /\ c.(n_parent_id) = Some x.
Proof.
  intros d x c. unfold get_children. split; intros H.
  - apply (Permutation_in _ (sort_by_perm _ _)) in H.
    apply filter_In in H as [H1 H2]. now apply opt_str_eqb_some in H2.
  - apply (Permutation_in _ (Permutation_sym (sort_by_perm _ _))).
    apply filter_In. split; [apply H | now apply opt_str_eqb_some].
Qed.

Lemma get_all_descendants_error : forall fuel d x e,
  get_all_descendants fuel d x = inl e -> e = RecursionError.
Proof.
  induction fuel as [|f IH]; intros d x e H; [now injection H|].
  rewrite get_all_descendants_S in H.
  induction (get_children d x) as [|c cs IHc]; simpl in H; [discriminate|].
  destruct (get_all_descendants f d (n_id c)) eqn:E.
  - injection H as <-. eapply IH; eauto.
  - destruct (desc_go f d cs); [injection H as <-; now apply IHc | discriminate].
Qed.

(** Every id [get_all_descendants] returns is that of a stored node, and the
    ids of the children come first in each step. *)
Lemma get_all_descendants_sound : forall fuel d x ds,
  get_all_descendants fuel d x = inr ds ->
  (forall i, In i ds -> exists m, In m d.(nodes) /\ m.(n_id) = i)
  /\ (forall c, In c (get_children d x) -> In c.(n_id) ds).
Proof.
  induction fuel as [|f IH]; intros d x ds H; [discriminate|].
  rewrite get_all_descendants_S in H.
  assert (Hch : forall c, In c (get_children d x) -> In c d.(nodes))
    by (intros c Hc; now apply get_children_spec in Hc).
  revert ds H Hch.
  generalize (get_children d x) as cs.
  induction cs as [|c cs IHc]; intros ds H Hch; simpl in H.
  - injection H as <-. split; [intros i []|intros c []].
  - destruct (get_all_descendants f d (n_id c)) as [|dsc] eqn:E; [discriminate|].
    destruct (desc_go f d cs) as [|rs] eqn:E2; [discriminate|].
    injection H as <-.
    destruct (IH _ _ _ E) as [Hs _].
    destruct (IHc rs eq_refl (fun c' H' => Hch c' (or_intror H'))) as [Hr Hrc].
    split.
    + intros i [<-|Hi]; [exists c; split; [apply Hch; now left | reflexivity]|].
      apply in_app_or in Hi as [Hi|Hi]; [now apply Hs | now apply Hr].
    + intros c' [<-|Hc']; [now left|]. right. apply in_or_app. right. now apply Hrc.
Qed.

Lemma self_parent_in_children : forall d nd,
  In nd d.(nodes) -> nd.(n_parent_id) = Some nd.(n_id) ->
  In nd.(n_id) (map n_id (get_children d nd.(n_id))).
Proof. intros d nd Hin Hp. apply in_map, get_children_spec. auto. Qed.

Lemma get_all_descendants_self_loop : forall fuel d x,
  In x (map n_id (get_children d x)) -> get_all_descendants fuel d x = inl RecursionError.
Proof.
  induction fuel as [|f IH]; intros d x H; [reflexivity|].
  specialize (IH d x H). rewrite get_all_descendants_S.
  induction (get_children d x) as [|c cs IHc]; [destruct H|].
  simpl. destruct (get_all_descendants f d (n_id c)) eqn:E.
  - apply get_all_descendants_error in E. now subst.
  - simpl in H. destruct H as [Hc|H].
    + rewrite Hc, IH in E. discriminate.
    + now rewrite IHc.
Qed.

Lemma update_node_status_meta_nodes : forall d x st m,
  (snd (update_node d x None None (Some st) (Some m))).(nodes)
  = map (fun nd => if String.eqb nd.(n_id) x
                   then apply_node_update None None (Some st) (Some m) d.(now) nd
                   else nd) d.(nodes).
Proof. reflexivity. Qed.

Lemma update_node_keeps_links : forall d x st m nd,
  In nd d.(nodes) ->
  exists nd', In nd' (snd (update_node d x None None (Some st) (Some m))).(nodes)
              /\ nd'.(n_id) = nd.(n_id) /\ nd'.(n_parent_id) = nd.(n_parent_id)
              /\ (nd.(n_id) <> x -> nd' = nd).
Proof.
  intros d x st m nd Hin. rewrite update_node_status_meta_nodes.
  eexists. split; [apply in_map, Hin|].
  destruct (String.eqb (n_id nd) x) eqn:E; simpl; [|auto].
  apply String.eqb_eq in E. repeat split; intros Hne; contradiction.
Qed.

Lemma update_node_ids : forall d x st m,
  map n_id (snd (update_node d x None None (Some st) (Some m))).(nodes) = map n_id d.(nodes).
Proof.
  intros d x st m. rewrite update_node_status_meta_nodes, map_map.
  apply map_ext. intros nd. now destruct (String.eqb (n_id nd) x).
Qed.

(** A node stored as its own parent ([create_node] accepts [parent_id =
    node_id]) sends [_get_all_descendants] into unbounded recursion: the
    branch health of that node is a RecursionError, and
    [execute_circuit_break] on it fails without deleting any node. *)
Theorem self_parent_node_raises_recursion_error : forall d nd,
  In nd d.(nodes) -> nd.(n_parent_id) = Some nd.(n_id) ->
  get_branch_health d nd.(n_id) = inl RecursionError
  /\ forall reason ts,
       let r := execute_circuit_break d nd.(n_id) reason ts in
       (exists e, fst r = inl e) /\ map n_id (snd r).(nodes) = map n_id d.(nodes).
Proof.
  intros d nd Hin Hp. split.
  - unfold get_branch_health.
    now rewrite get_all_descendants_self_loop by now apply self_parent_in_children.
  - intros reason ts r. unfold r, execute_circuit_break.
    destruct (get_node d (n_id nd)) as [nd0|].
    + destruct (n_meta nd0) as [m|]; [|simpl; eauto].
      set (m' := dict_set _ _ _).
      set (d1 := snd (update_node d (n_id nd) None None (Some "circuit_broken"%string) (Some m'))).
      destruct (update_node_keeps_links d (n_id nd) "circuit_broken" m' nd Hin)
        as [nd' [Hin' [Hid [Hpar _]]]].
      fold d1 in Hin'.
      rewrite get_all_descendants_self_loop.
      * simpl. split; [eauto|]. apply update_node_ids.
      * rewrite <- Hid. apply self_parent_in_children; [exact Hin'|]. congruence.
    + rewrite get_all_descendants_self_loop by now apply self_parent_in_children.
      simpl. eauto.
Qed.

Lemma self_parent_node_raises_recursion_error_witness :
  get_branch_health (snd (create_node empty_db "x" "loop" (Some "x"%string) 5 0 None)) "x"
  = inl RecursionError.
Proof.
  exact (proj1 (self_parent_node_raises_recursion_error
                  (snd (create_node empty_db "x" "loop" (Some "x"%string) 5 0 None))
                  (mkNode "x" (Some "x"%string) "loop" 5 "pending" 0 0 0 None)
                  ltac:(simpl; now left) eq_refl)).
Defined.

(** On a store where every child is one level deeper than its parent,
    [_get_all_descendants] of a node returns without RecursionError when the
    Python stack has room for [fuel] nested calls and no node lies [fuel] or
    more levels below that node; every id it returns is that of a stored
    node deeper than it. *)
Theorem get_all_descendants_terminates_on_depth_consistent_store : forall fuel d nx,
  depth_invariant d.(nodes) -> In nx d.(nodes) ->
  (forall m, In m d.(nodes) -> m.(n_depth) < nx.(n_depth) + Z.of_nat fuel) ->
  exists ds, get_all_descendants fuel d nx.(n_id) = inr ds
             /\ forall i, In i ds -> exists m, In m d.(nodes) /\ m.(n_id) = i
                                              /\ nx.(n_depth) < m.(n_depth).
Proof.
  induction fuel as [|f IH]; intros d nx Hinv Hin Hb.
  - specialize (Hb nx Hin). lia.
  - rewrite get_all_descendants_S.
    assert (Hch : forall c, In c (get_children d (n_id nx)) ->
                  In c d.(nodes) /\ n_depth c = n_depth nx + 1).
    { intros c Hc. apply get_children_spec in Hc as [Hc Hp].
      split; [exact Hc | now apply Hinv]. }
    induction (get_children d (n_id nx)) as [|c cs IHc].
    + exists []. split; [reflexivity | intros i []].
    + destruct (Hch c (or_introl eq_refl)) as [Hc Hdc].
      destruct (IH d c Hinv Hc) as [dsc [Edsc Hdsc]].
      { intros m Hm. specialize (Hb m Hm). lia. }
      destruct IHc as [rs [Ers Hrs]]; [intros c' H'; apply Hch; now right|].
      exists (n_id c :: dsc ++ rs). simpl. rewrite Edsc, Ers. split; [reflexivity|].
      intros i [<-|Hi]; [exists c; repeat split; [exact Hc | lia]|].
      apply in_app_or in Hi as [Hi|Hi]; [|now apply Hrs].
      destruct (Hdsc i Hi) as [m [Hm [Him Hdm]]]. exists m. repeat split; auto. lia.
Qed.

Lemma get_all_descendants_terminates_on_depth_consistent_store_witness :
  exists ds, get_all_descendants 3 scenario_tree "R" = inr ds
             /\ forall i, In i ds -> exists m, In m scenario_tree.(nodes) /\ m.(n_id) = i
                                              /\ 0 < m.(n_depth).
Proof.
  apply (get_all_descendants_terminates_on_depth_consistent_store 3 scenario_tree
           (mkNode "R" None "root" 0 "pending" 0 0 0 None)).
  - apply depth_invariantb_sound. reflexivity.
  - simpl. now left.
  - intros m Hm. simpl in Hm.
    repeat destruct Hm as [<-|Hm]; simpl; try lia.
Defined.

Lemma delete_nodes_by_id_spec : forall ids d nd,
  In nd (delete_nodes_by_id d ids).(nodes) <-> In nd d.(nodes) /\ ~ In nd.(n_id) ids.
Proof.
  unfold delete_nodes_by_id.
  induction ids as [|i t IH]; intros d nd; simpl.
  - tauto.
  - rewrite IH. simpl. rewrite filter_In.
    destruct (String.eqb_spec (n_id nd) i); simpl; intuition congruence.
Qed.

Lemma circuit_break_delete_subtree : forall d1 x ds,
  get_all_descendants py_recursion_limit d1 x = inr ds ->
  let d' := delete_nodes_by_id d1 ds in
  get_children d' x = []
  /\ (forall nd, In nd d'.(nodes) -> ~ In nd.(n_id) ds)
  /\ (forall nd, In nd d1.(nodes) -> ~ In nd.(n_id) ds -> In nd d'.(nodes)).
Proof.
  intros d1 x ds Hg d'.
  assert (Hdel : forall nd, In nd d'.(nodes) <-> In nd d1.(nodes) /\ ~ In nd.(n_id) ds)
    by (intros nd; apply delete_nodes_by_id_spec).
  destruct (get_all_descendants_sound _ _ _ _ Hg) as [_ Hch].
  split; [|split].
  - destruct (get_children d' x) as [|c cs] eqn:E; [reflexivity|].
    exfalso. assert (Hc : In c (get_children d' x)) by (rewrite E; now left).
    apply get_children_spec in Hc as [Hc Hp]. apply Hdel in Hc as [Hc Hn].
    apply Hn, Hch, get_children_spec. split; assumption.
  - intros nd Hnd. apply Hdel in Hnd as [_ Hn]. exact Hn.
  - intros nd H1 H2. apply Hdel. split; assumption.
Qed.

(** When [execute_circuit_break] succeeds it returns the number and the list
    of the descendant ids it found; afterwards the node has no children left,
    no remaining node carries one of those ids, and every other node (any id
    that is neither the broken node's nor a returned one) is still stored,
    unchanged. *)
Theorem execute_circuit_break_removes_subtree : forall d x reason ts n ds d',
  execute_circuit_break d x reason ts = (inr (n, ds), d') ->
  n = length ds
  /\ get_children d' x = []
  /\ (forall nd, In nd d'.(nodes) -> ~ In nd.(n_id) ds)
  /\ (forall nd, In nd d.(nodes) -> nd.(n_id) <> x -> ~ In nd.(n_id) ds -> In nd d'.(nodes)).
Proof.
  intros d x reason ts n ds d' H. unfold execute_circuit_break in H.
  assert (Hgen : forall d1, (forall nd, In nd d.(nodes) -> nd.(n_id) <> x -> In nd d1.(nodes)) ->
            match get_all_descendants py_recursion_limit d1 x with
            | inl e => (inl e, d1)
            | inr ds0 => (inr (length ds0, ds0), delete_nodes_by_id d1 ds0)
            end = (inr (n, ds), d') ->
            n = length ds /\ get_children d' x = []
            /\ (forall nd, In nd d'.(nodes) -> ~ In nd.(n_id) ds)
            /\ (forall nd, In nd d.(nodes) -> nd.(n_id) <> x -> ~ In nd.(n_id) ds ->
                           In nd d'.(nodes))).
  { intros d1 Hd1 H1.
    destruct (get_all_descendants py_recursion_limit d1 x) as [|ds0] eqn:Eg; [discriminate|].
    injection H1 as <- <- <-.
    destruct (circuit_break_delete_subtree _ _ _ Eg) as [A [B C]].
    split; [reflexivity|]. split; [exact A|]. split; [exact B|].
    intros nd Hin Hne Hds. apply C; [apply Hd1|]; assumption. }
  destruct (get_node d x) as [nd0|].
  - destruct (n_meta nd0) as [m|]; [|discriminate].
    refine (Hgen _ _ H).
    intros nd Hin Hne.
    destruct (update_node_keeps_links d x "circuit_broken"
                (dict_set "circuit_break_timestamp" ts
                   (dict_set "circuit_break_reason" reason (dict_set "circuit_broken" "true" m)))
                nd Hin) as [nd' [Hin' [_ [_ Heq]]]].
    now rewrite <- (Heq Hne).
  - apply (Hgen d); [intros nd Hin _; exact Hin | exact H].
Qed.

Definition circuit_tree : db :=
  let d1 := snd (create_node empty_db "r" "root" None 6 0 (Some [("owner", "me")]%string)) in
  let d2 := snd (create_node d1 "c1" "child" (Some "r"%string) 3 1 None) in
  let d3 := snd (create_node d2 "g1" "grandchild" (Some "c1"%string) 2 2 None) in
  snd (create_node d3 "s" "sibling" None 8 0 None).

Lemma execute_circuit_break_removes_subtree_witness :
  fst (execute_circuit_break circuit_tree "r" "low" "t0")
    = inr (2%nat, ["c1"; "g1"]%string)
  /\ get_children (snd (execute_circuit_break circuit_tree "r" "low" "t0")) "r" = [].
Proof.
  assert (E : execute_circuit_break circuit_tree "r" "low" "t0"
              = (inr (2%nat, ["c1"; "g1"]%string),
                 snd (execute_circuit_break circuit_tree "r" "low" "t0")))
    by (vm_compute; reflexivity).
  split; [rewrite E; reflexivity|].
  exact (proj1 (proj2 (execute_circuit_break_removes_subtree _ _ _ _ _ _ _ E))).
Defined.

Lemma get_node_stored : forall d i,
  (exists m, In m d.(nodes) /\ m.(n_id) = i) -> exists nd, get_node d i = Some nd.
Proof.
  intros d i [m [Hm Hi]]. apply existsb_true_find, existsb_exists.
  exists m. split; [exact Hm|]. apply String.eqb_eq, Hi.
Qed.

Lemma branch_scores_length : forall d ds,
  (forall i, In i ds -> exists m, In m d.(nodes) /\ m.(n_id) = i) ->
  length (flat_map (fun i => match get_node d i with
                             | Some nd => [nd.(n_score)]
                             | None => []
                             end) ds) = length ds.
Proof.
  intros d ds H. induction ds as [|i t IH]; [reflexivity|].
  simpl. destruct (get_node_stored d i (H i (or_introl eq_refl))) as [nd E].
  rewrite E. simpl. f_equal. apply IH. intros j Hj. apply H. now right.
Qed.

Lemma score_buckets_partition : forall l : list Q,
  (py_count (fun s => Qle_bool 9 s) l
   + py_count (fun s => Qle_bool 7 s && negb (Qle_bool 9 s)) l
   + py_count (fun s => Qle_bool 5 s && negb (Qle_bool 7 s)) l
   + py_count (fun s => negb (Qle_bool 5 s)) l)%nat = length l.
Proof.
  unfold py_count. induction l as [|s t IH]; [reflexivity|]. simpl.
  destruct (Qle_bool 9 s) eqn:E9, (Qle_bool 7 s) eqn:E7, (Qle_bool 5 s) eqn:E5;
    simpl; try lia; exfalso;
    repeat match goal with
           | H : Qle_bool _ _ = true |- _ => apply Qle_bool_iff in H
           | H : Qle_bool _ _ = false |- _ =>
               apply Bool.not_true_iff_false in H; rewrite Qle_bool_iff in H
           end;
    lra.
Qed.

(** A health report of [get_branch_health] is consistent: the four score
    buckets (>= 9, [7, 9), [5, 7), < 5) together count every descendant, and
    the minimum score is at most the maximum. *)
Theorem get_branch_health_report_consistent :
  forall d x health recommendation n avg mx mn e g f p,
  get_branch_health d x = inr (BHReport health recommendation n avg mx mn e g f p) ->
  (e + g + f + p = n)%nat /\ (mn <= mx)%Q.
Proof.
  intros d x health recommendation n avg mx mn e g f p H.
  unfold get_branch_health in H.
  destruct (get_all_descendants py_recursion_limit d x) as [|ds] eqn:Eg; [discriminate|].
  destruct (get_all_descendants_sound _ _ _ _ Eg) as [Hs _].
  assert (Hlen := branch_scores_length d ds Hs).
  destruct ds as [|i0 ds0]; [discriminate|].
  set (ds := i0 :: ds0) in *.
  set (scores := flat_map _ ds) in *.
  destruct scores as [|h t] eqn:Es; [discriminate|].
  set (avg0 := ((fold_left _ (h :: t) 0 / _))%float) in H.
  assert (Hrep : e = py_count (fun s => Qle_bool 9 s) (h :: t)
              /\ g = py_count (fun s => Qle_bool 7 s && negb (Qle_bool 9 s)) (h :: t)
              /\ f = py_count (fun s => Qle_bool 5 s && negb (Qle_bool 7 s)) (h :: t)
              /\ p = py_count (fun s => negb (Qle_bool 5 s)) (h :: t)
              /\ n = length ds /\ mx = py_max h t /\ mn = py_min h t).
  { destruct (8 <=? avg0)%float; [injection H; intros; subst; tauto|].
    destruct (6 <=? avg0)%float; [injection H; intros; subst; tauto|].
    destruct (4 <=? avg0)%float; injection H; intros; subst; tauto. }
  destruct Hrep as [-> [-> [-> [-> [-> [-> ->]]]]]].
  split.
  - rewrite score_buckets_partition, <- Hlen. reflexivity.
  - destruct (py_max_spec t h) as [Hin _]. destruct (py_min_spec t h) as [_ Hmn].
    apply Hmn, Hin.
Qed.

Lemma get_branch_health_report_consistent_witness :
  (0 + 0 + 0 + 2 = 2)%nat /\ (2 <= 3)%Q.
Proof.
  exact (get_branch_health_report_consistent circuit_tree "r" "poor" "consider_circuit_break"
           2 2.5%float 3 2 0 0 0 2 ltac:(vm_compute; reflexivity)).
Defined.

(** ** Information entropy *)

Lemma py_set_mem_in : forall x s, py_set_mem x s = true <-> In x s.
Proof. intros x s. apply existsb_eqb_in. Qed.

Lemma py_set_diff_incl_nil : forall l s, incl l s -> py_set_diff l s = [].
Proof.
  unfold py_set_diff. induction l as [|x t IH]; intros s H; [reflexivity|].
  simpl. assert (Hx : py_set_mem x s = true) by (apply py_set_mem_in, H; now left).
  rewrite Hx. simpl. apply IH. intros y Hy. apply H. now right.
Qed.

Lemma py_set_inter_incl_id : forall l s, incl l s -> py_set_inter l s = l.
Proof.
  unfold py_set_inter. induction l as [|x t IH]; intros s H; [reflexivity|].
  simpl. assert (Hx : py_set_mem x s = true) by (apply py_set_mem_in, H; now left).
  rewrite Hx. f_equal. apply IH. intros y Hy. apply H. now right.
Qed.

Lemma filter_negb_length {A} (p : A -> bool) : forall l,
  (length (filter (fun x => negb (p x)) l) + length (filter p l) = length l)%nat.
Proof. induction l as [|x t IH]; simpl; [reflexivity|]. destruct (p x); simpl; lia. Qed.

Lemma Qle_bool_true_of : forall x y, (x <= y)%Q -> Qle_bool x y = true.
Proof. intros x y. apply Qle_bool_iff. Qed.

Lemma Qle_bool_false_of : forall x y, (y < x)%Q -> Qle_bool x y = false.
Proof.
  intros x y H. apply Bool.not_true_iff_false. rewrite Qle_bool_iff. lra.
Qed.

Lemma inject_nat_pos : forall n, (0 < inject_Z (Z.of_nat (S n)))%Q.
Proof. intros n. rewrite Nat2Z.inj_succ. unfold Qlt. simpl. lia. Qed.

Lemma inject_nat_le : forall a b, (a <= b)%nat ->
  (inject_Z (Z.of_nat a) <= inject_Z (Z.of_nat b))%Q.
Proof. intros a b H. rewrite <- Zle_Qle. lia. Qed.

Lemma ratio_bounds : forall a b, (a <= S b)%nat ->
  (0 <= inject_Z (Z.of_nat a) / inject_Z (Z.of_nat (S b)) <= 1)%Q.
Proof.
  intros a b H. assert (Hp := inject_nat_pos b). assert (Hab := inject_nat_le _ _ H).
  assert (H0 : (0 <= inject_Z (Z.of_nat a))%Q) by (change 0%Q with (inject_Z 0); rewrite <- Zle_Qle; lia).
  split.
  - apply Qle_shift_div_l; [exact Hp|]. lra.
  - apply Qle_shift_div_r; [exact Hp|]. lra.
Qed.

(** Comparing a set of nodes with itself finds nothing new: either no
    keyword is found at all, or the entropy is 0, the content is classed as
    duplicate with the recommendation to stop exploring, every keyword
    overlaps and the overlap ratio is 1. *)
Theorem information_entropy_of_self_is_zero : forall d ids,
  match calculate_information_entropy d ids ids with
  | EntropyNoKeywords n e => n = 0%nat /\ e = 0%nat
  | EntropyReport ent interp n e u o ratio rec =>
      ent == 0 /\ interp = "duplicate_content"%string /\ rec = "stop_exploration"%string
      /\ e = n /\ u = 0%nat /\ o = n /\ ratio == 1
  end%Q.
Proof.
  intros d ids. unfold calculate_information_entropy.
  destruct (extract_keywords (String.concat " " (contents_of d ids))) as [|k ks] eqn:E;
    [split; reflexivity|].
  assert (Hi : incl (k :: ks) (k :: ks)) by apply incl_refl.
  unfold py_set_union.
  rewrite (py_set_diff_incl_nil _ _ Hi), (py_set_inter_incl_id _ _ Hi), app_nil_r.
  assert (Hz : (inject_Z (Z.of_nat (length (@nil string)))
                / inject_Z (Z.of_nat (length (k :: ks))) == 0)%Q)
    by (unfold Qdiv; simpl length; rewrite Qmult_0_l; reflexivity).
  rewrite (Qle_bool_true_of _ (7 # 10)) by (rewrite Hz; lra).
  rewrite (Qle_bool_true_of _ (4 # 10)) by (rewrite Hz; lra).
  rewrite (Qle_bool_true_of _ (2 # 10)) by (rewrite Hz; lra).
  simpl negb. cbv iota beta.
  split; [exact Hz|]. do 5 (split; [reflexivity|]).
  simpl length. unfold Qdiv. rewrite Qmult_inv_r; [reflexivity|].
  apply Qnot_eq_sym, Qlt_not_eq, inject_nat_pos.
Qed.

(** Every entropy report is well formed: the entropy and the overlap ratio
    lie in [0, 1], the unique and the overlapping new keywords add up to the
    new keywords, and the recommendation is "continue" exactly when the
    content is not classed as duplicate. The early return happens only when
    one side has no keyword. *)
Theorem information_entropy_report_bounds : forall d new_ids existing_ids,
  match calculate_information_entropy d new_ids existing_ids with
  | EntropyNoKeywords n e => n = 0%nat \/ e = 0%nat
  | EntropyReport ent interp n e u o ratio rec =>
      (0 <= ent <= 1)%Q /\ (u + o = n)%nat /\ (0 <= ratio <= 1)%Q
      /\ (rec = "continue"%string <-> interp <> "duplicate_content"%string)
  end.
Proof.
  intros d new_ids existing_ids. unfold calculate_information_entropy.
  set (N := extract_keywords (String.concat " " (contents_of d new_ids))).
  set (X := extract_keywords (String.concat " " (contents_of d existing_ids))).
  destruct N as [|k ks]; [now left|].
  destruct X as [|x xs]; [now right|].
  set (ent := (inject_Z (Z.of_nat (length (py_set_diff (k :: ks) (x :: xs))))
               / inject_Z (Z.of_nat (length (k :: ks))))%Q).
  assert (Hsplit : (length (py_set_diff (k :: ks) (x :: xs))
                    + length (py_set_inter (k :: ks) (x :: xs)) = length (k :: ks))%nat)
    by apply (filter_negb_length (fun w => py_set_mem w (x :: xs)) (k :: ks)).
  change (length (k :: ks)) with (S (length ks)) in *.
  split; [|split; [|split]].
  - apply ratio_bounds. lia.
  - exact Hsplit.
  - unfold py_set_union.
    change ((k :: ks) ++ py_set_diff (x :: xs) (k :: ks))
      with (k :: (ks ++ py_set_diff (x :: xs) (k :: ks))).
    assert (Hb : (length (py_set_inter (k :: ks) (x :: xs))
                  <= S (length (ks ++ py_set_diff (x :: xs) (k :: ks))))%nat)
      by (rewrite length_app; lia).
    apply ratio_bounds. exact Hb.
  - destruct (Qle_bool ent (7 # 10)) eqn:E7, (Qle_bool ent (4 # 10)) eqn:E4,
      (Qle_bool ent (2 # 10)) eqn:E2; simpl negb; cbv iota beta;
      try (split; intro Hc; (discriminate || reflexivity || (exfalso; apply Hc; reflexivity)));
      exfalso;
      repeat match goal with
             | H : Qle_bool _ _ = true |- _ => apply Qle_bool_iff in H
             | H : Qle_bool _ _ = false |- _ =>
                 apply Bool.not_true_iff_false in H; rewrite Qle_bool_iff in H
             end;
      lra.
Qed.

(** ** Entity lookups, edges and co-occurrences *)

Lemma find_app_some {A} (f : A -> bool) :
  forall l suf x, find f l = Some x -> find f (l ++ suf) = Some x.
Proof.
  induction l as [|y t IH]; intros suf x H; simpl in *; [discriminate|].
  destruct (f y); [exact H | now apply IH].
Qed.

Lemma create_entity_shape : forall d sid n et desc,
  (snd (create_entity d sid n et desc)).(aliases) = d.(aliases)
  /\ exists suf, (snd (create_entity d sid n et desc)).(entities) = d.(entities) ++ suf.
Proof.
  intros. unfold create_entity. destruct (find _ _); simpl.
  - split; [reflexivity|]. exists []. now rewrite app_nil_r.
  - split; [reflexivity|]. eexists. reflexivity.
Qed.

Lemma create_entity_lookup : forall d sid n et desc,
  exists e, get_entity_by_name (snd (create_entity d sid n et desc)) sid n = Some e
            /\ e.(e_id) = fst (create_entity d sid n et desc)
            /\ e.(e_session_id) = sid /\ e.(e_name) = get_canonical_name d n.
Proof.
  intros d sid n et desc.
  destruct (create_entity_find d sid n et desc) as [Hf Hid].
  destruct (create_entity_shape d sid n et desc) as [Ha _].
  unfold get_entity_by_name. unfold get_canonical_name at 1. rewrite Ha.
  fold (get_canonical_name d n). rewrite Hf, Hid.
  eexists. split; [reflexivity|]. split; [reflexivity|].
  destruct (find _ d.(entities)) as [e|] eqn:F; [|split; reflexivity].
  apply find_some_true in F. apply andb_prop in F as [F1 F2].
  split; now apply String.eqb_eq.
Qed.

Lemma get_entity_by_name_extend : forall d d' suf sid n e,
  d'.(aliases) = d.(aliases) -> d'.(entities) = d.(entities) ++ suf ->
  get_entity_by_name d sid n = Some e -> get_entity_by_name d' sid n = Some e.
Proof.
  intros d d' suf sid n e Ha He H. unfold get_entity_by_name, get_canonical_name in *.
  rewrite Ha, He. now apply find_app_some.
Qed.

Lemma create_entity_found : forall d sid n et desc e,
  get_entity_by_name d sid n = Some e -> create_entity d sid n et desc = (e.(e_id), d).
Proof.
  intros d sid n et desc e H. unfold create_entity. unfold get_entity_by_name in H.
  now rewrite H.
Qed.

Lemma record_cooccurrence_shape : forall d a b ctx,
  (record_cooccurrence d a b ctx).(aliases) = d.(aliases)
  /\ (record_cooccurrence d a b ctx).(entities) = d.(entities).
Proof.
  intros. unfold record_cooccurrence. destruct (if Nat.ltb b a then _ else _).
  destruct (find _ _); split; reflexivity.
Qed.

Lemma record_cooccurrence_row : forall d a b ctx,
  exists r, cooc_row_of (record_cooccurrence d a b ctx) (Nat.min a b) (Nat.max a b) = Some r
            /\ co_count r = S (match cooc_row_of d (Nat.min a b) (Nat.max a b) with
                               | Some r0 => co_count r0 | None => 0%nat end)
            /\ length (record_cooccurrence d a b ctx).(cooccurrences)
               = (length d.(cooccurrences)
                  + match cooc_row_of d (Nat.min a b) (Nat.max a b) with
                    | Some _ => 0 | None => 1 end)%nat.
Proof.
  intros d a b ctx. unfold record_cooccurrence, cooc_row_of. rewrite cooc_pair_order.
  set (lo := Nat.min a b). set (hi := Nat.max a b).
  set (P := fun r : cooc_row => Nat.eqb r.(co_entity_a_id) lo && Nat.eqb r.(co_entity_b_id) hi).
  destruct (find P d.(cooccurrences)) as [ex|] eqn:Ef; simpl.
  - rewrite find_map_same.
    2:{ intros x. destruct (Nat.eqb (co_id x) (co_id ex)); reflexivity. }
    rewrite Ef. simpl. rewrite Nat.eqb_refl. eexists. split; [reflexivity|].
    simpl. split; [reflexivity|]. rewrite length_map. lia.
  - rewrite find_app_none; [|exact Ef|].
    + eexists. split; [reflexivity|]. simpl. split; [reflexivity|].
      rewrite length_app. reflexivity.
    + unfold P. simpl. rewrite !Nat.eqb_refl. reflexivity.
Qed.

(** [get_entity_by_name] finds what [create_entity] stored: after
    [create_entity(session, name)] the lookup of the same name in the same
    session returns the entity whose id [create_entity] returned, stored
    under the canonical form of the name. *)
Theorem get_entity_by_name_after_create_entity : forall d sid n et desc,
  let '(entity_id, d') := create_entity d sid n et desc in
  exists e, get_entity_by_name d' sid n = Some e
            /\ e.(e_id) = entity_id /\ e.(e_session_id) = sid
            /\ e.(e_name) = get_canonical_name d n.
Proof.
  intros d sid n et desc.
  destruct (create_entity_lookup d sid n et desc) as [e He].
  destruct (create_entity d sid n et desc) as [entity_id d']. exists e. exact He.
Qed.

Lemma eg_record_cooccurrence_unfold : forall d sid a b ctx,
  eg_record_cooccurrence d sid a b ctx
  = record_cooccurrence (snd (create_entity (snd (create_entity d sid a None None)) sid b None None))
      (fst (create_entity d sid a None None))
      (fst (create_entity (snd (create_entity d sid a None None)) sid b None None)) ctx.
Proof.
  intros. unfold eg_record_cooccurrence.
  destruct (create_entity d sid a None None) as [ia da]. cbn [fst snd].
  destruct (create_entity da sid b None None) as [ib dab]. reflexivity.
Qed.

(** Recording a co-occurrence of two names and then of the same names in
    the other order ([EntityGraph.record_cooccurrence]) counts both on the
    same row: the second call adds no row and adds one to the counter of the
    row of the two entities found under those names. *)
Theorem eg_record_cooccurrence_reversed_pair_same_row : forall d sid a b c1 c2,
  let d1 := eg_record_cooccurrence d sid a b c1 in
  let d2 := eg_record_cooccurrence d1 sid b a c2 in
  length d2.(cooccurrences) = length d1.(cooccurrences)
  /\ exists ea eb r1 r2,
       get_entity_by_name d2 sid a = Some ea /\ get_entity_by_name d2 sid b = Some eb
       /\ cooc_row_of d1 (Nat.min ea.(e_id) eb.(e_id)) (Nat.max ea.(e_id) eb.(e_id)) = Some r1
       /\ cooc_row_of d2 (Nat.min ea.(e_id) eb.(e_id)) (Nat.max ea.(e_id) eb.(e_id)) = Some r2
       /\ co_count r2 = S (co_count r1).
Proof.
  intros d sid a b c1 c2 d1 d2.
  set (da := snd (create_entity d sid a None None)).
  set (dab := snd (create_entity da sid b None None)).
  destruct (create_entity_lookup d sid a None None) as [ea [Hea [Hia _]]]. fold da in Hea.
  destruct (create_entity_lookup da sid b None None) as [eb [Heb [Hib _]]]. fold dab in Heb.
  destruct (create_entity_shape da sid b None None) as [Ha2 [suf He2]]. fold dab in Ha2, He2.
  assert (Hea2 : get_entity_by_name dab sid a = Some ea)
    by exact (get_entity_by_name_extend _ _ _ _ _ _ Ha2 He2 Hea).
  assert (Hd1 : d1 = record_cooccurrence dab (e_id ea) (e_id eb) c1)
    by (unfold d1; rewrite eg_record_cooccurrence_unfold, Hia, Hib; reflexivity).
  destruct (record_cooccurrence_shape dab (e_id ea) (e_id eb) c1) as [Ha3 He3].
  rewrite <- Hd1 in Ha3, He3.
  assert (Hsame : forall n, get_entity_by_name d1 sid n = get_entity_by_name dab sid n).
  { intros n. unfold get_entity_by_name, get_canonical_name. now rewrite Ha3, He3. }
  assert (Hd2 : d2 = record_cooccurrence d1 (e_id eb) (e_id ea) c2).
  { unfold d2, eg_record_cooccurrence.
    rewrite (create_entity_found d1 sid b None None eb) by now rewrite Hsame.
    rewrite (create_entity_found d1 sid a None None ea) by now rewrite Hsame.
    reflexivity. }
  destruct (record_cooccurrence_shape d1 (e_id eb) (e_id ea) c2) as [Ha4 He4].
  rewrite <- Hd2 in Ha4, He4.
  assert (Hsame2 : forall n, get_entity_by_name d2 sid n = get_entity_by_name dab sid n).
  { intros n. rewrite <- Hsame. unfold get_entity_by_name, get_canonical_name.
    now rewrite Ha4, He4. }
  destruct (record_cooccurrence_row dab (e_id ea) (e_id eb) c1) as [r1 [Hr1 _]].
  rewrite <- Hd1 in Hr1.
  destruct (record_cooccurrence_row d1 (e_id eb) (e_id ea) c2) as [r2 [Hr2 [Hc2 Hl2]]].
  rewrite <- Hd2 in Hr2, Hl2.
  rewrite (Nat.min_comm (e_id eb)), (Nat.max_comm (e_id eb)) in Hr2, Hc2, Hl2.
  rewrite Hr1 in Hc2, Hl2.
  split; [lia|].
  exists ea, eb, r1, r2. rewrite !Hsame2.
  repeat split; assumption.
Qed.

Lemma in_sm_get_related_entities_outgoing : forall g src tgt rel conf ev e ed,
  In ed g.(g_edges) -> ed.(ed_source_entity_id) = src -> ed.(ed_target_entity_id) = tgt ->
  ed.(ed_relation_type) = rel -> ed.(ed_confidence) = conf -> ed.(ed_evidence) = ev ->
  In e g.(g_base).(entities) -> e.(e_id) = tgt ->
  In (mkRelated e rel conf ev "outgoing") (sm_get_related_entities g src (Some rel) "outgoing").
Proof.
  intros g src tgt rel conf ev e ed Hed Hs Ht Hr Hc Hv He Hid.
  unfold sm_get_related_entities.
  replace (existsb (String.eqb "outgoing") ["outgoing"; "both"]%string) with true by reflexivity.
  replace (existsb (String.eqb "outgoing") ["incoming"; "both"]%string) with false by reflexivity.
  rewrite app_nil_r.
  apply in_flat_map. exists ed. split; [exact Hed|].
  rewrite Hs, Nat.eqb_refl, andb_true_l.
  replace (match py_truthy_str (Some rel) with
           | Some r => String.eqb (ed_relation_type ed) r | None => true end) with true
    by (unfold py_truthy_str; destruct (String.eqb rel ""); [reflexivity|];
        rewrite Hr; symmetry; apply String.eqb_refl).
  apply in_map_iff. exists e. split; [now rewrite Hr, Hc, Hv|].
  apply filter_In. split; [exact He|].
  rewrite Hid, Ht. apply Nat.eqb_refl.
Qed.

Lemma in_sm_get_related_entities_incoming : forall g src tgt rel conf ev e ed,
  In ed g.(g_edges) -> ed.(ed_source_entity_id) = src -> ed.(ed_target_entity_id) = tgt ->
  ed.(ed_relation_type) = rel -> ed.(ed_confidence) = conf -> ed.(ed_evidence) = ev ->
  In e g.(g_base).(entities) -> e.(e_id) = src ->
  In (mkRelated e rel conf ev "incoming") (sm_get_related_entities g tgt (Some rel) "incoming").
Proof.
  intros g src tgt rel conf ev e ed Hed Hs Ht Hr Hc Hv He Hid.
  unfold sm_get_related_entities.
  replace (existsb (String.eqb "incoming") ["outgoing"; "both"]%string) with false by reflexivity.
  replace (existsb (String.eqb "incoming") ["incoming"; "both"]%string) with true by reflexivity.
  rewrite app_nil_l.
  apply in_flat_map. exists ed. split; [exact Hed|].
  rewrite Ht, Nat.eqb_refl, andb_true_l.
  replace (match py_truthy_str (Some rel) with
           | Some r => String.eqb (ed_relation_type ed) r | None => true end) with true
    by (unfold py_truthy_str; destruct (String.eqb rel ""); [reflexivity|];
        rewrite Hr; symmetry; apply String.eqb_refl).
  apply in_map_iff. exists e. split; [now rewrite Hr, Hc, Hv|].
  apply filter_In. split; [exact He|].
  rewrite Hid, Hs. apply Nat.eqb_refl.
Qed.

Lemma create_entity_stored : forall d sid n et desc,
  exists e, In e (snd (create_entity d sid n et desc)).(entities)
            /\ e.(e_id) = fst (create_entity d sid n et desc).
Proof.
  intros d sid n et desc.
  destruct (create_entity_lookup d sid n et desc) as [e [He [Hid _]]].
  exists e. split; [|exact Hid]. unfold get_entity_by_name in He.
  now apply find_some in He as [He _].
Qed.

(** An edge added with [EntityGraph.add_edge] is seen from both ends by
    [StateManager.get_related_entities]: filtered by its relation type, the
    outgoing relations of the returned source id list the target entity and
    the incoming relations of the returned target id list the source
    entity, each with the edge's relation type, confidence and evidence. *)
Theorem add_edge_visible_from_both_ends : forall g sid src_name tgt_name rel conf ev,
  let '((edge_id, source_id, target_id), g') := eg_add_edge g sid src_name tgt_name rel conf ev in
  (exists e, e.(e_id) = target_id
             /\ In (mkRelated e rel conf ev "outgoing")
                   (sm_get_related_entities g' source_id (Some rel) "outgoing"))
  /\ (exists e, e.(e_id) = source_id
                /\ In (mkRelated e rel conf ev "incoming")
                      (sm_get_related_entities g' target_id (Some rel) "incoming")).
Proof.
  intros g sid src_name tgt_name rel conf ev. unfold eg_add_edge.
  destruct (create_entity_stored (g_base g) sid src_name None None) as [es [Hes Hsid]].
  destruct (create_entity (g_base g) sid src_name None None) as [source_id d1] eqn:E1.
  simpl in Hes, Hsid.
  destruct (create_entity_stored d1 sid tgt_name None None) as [et [Het Htid]].
  destruct (create_entity_shape d1 sid tgt_name None None) as [_ [suf Hsuf]].
  destruct (create_entity d1 sid tgt_name None None) as [target_id d2] eqn:E2.
  simpl in Het, Htid, Hsuf.
  simpl.
  set (ed := mkEdge (S (g_seq_edges g)) sid source_id target_id rel conf ev None).
  assert (Hed : In ed (g_edges g ++ [ed])) by (apply in_or_app; right; now left).
  assert (Hes2 : In es (entities d2)) by (rewrite Hsuf; apply in_or_app; now left).
  split.
  - exists et. split; [exact Htid|].
    apply (in_sm_get_related_entities_outgoing
             (mkGraphDb (add_changes d2 1) (g_edges g ++ [ed]) (S (g_seq_edges g)))
             source_id target_id rel conf ev et ed Hed); try reflexivity; [exact Het | exact Htid].
  - exists es. split; [exact Hsid|].
    apply (in_sm_get_related_entities_incoming
             (mkGraphDb (add_changes d2 1) (g_edges g ++ [ed]) (S (g_seq_edges g)))
             source_id target_id rel conf ev es ed Hed); try reflexivity; [exact Hes2 | exact Hsid].
Qed.

(** ** Graph traversal ([EntityGraph.get_related_entities]) *)

Definition hit_id (h : traversal_hit) : nat := h.(h_related).(r_entity).(e_id).

(** The state of [traverse]: [visited] is the start entity followed by the
    entities of [results], all distinct, and each result carries a depth in
    [1, depth] and a path of that length. *)
Definition trav_inv (start : nat) (depth : Z) (st : list nat * list traversal_hit) : Prop :=
  fst st = start :: map hit_id (snd st) /\ NoDup (fst st)
  /\ forall h, In h (snd st) ->
       1 <= h.(h_depth) <= depth /\ Z.of_nat (length h.(h_path)) = h.(h_depth).

Lemma trav_inv_step : forall start depth visited results rel cd path,
  trav_inv start depth (visited, results) ->
  existsb (Nat.eqb rel.(r_entity).(e_id)) visited = false ->
  1 <= cd <= depth -> Z.of_nat (length path) = cd - 1 ->
  trav_inv start depth (visited ++ [rel.(r_entity).(e_id)],
                        results ++ [mkHit rel cd (path ++ [rel.(r_relation_type)])]).
Proof.
  intros start depth visited results rel cd path [Hv [Hnd Hh]] Hnew Hcd Hp.
  simpl in Hv, Hnd, Hh. split; [|split]; simpl.
  - rewrite Hv, map_app. reflexivity.
  - apply NoDup_app; [exact Hnd | constructor; [intros []|constructor] |].
    intros x Hx [<-|[]]. apply Bool.not_true_iff_false in Hnew. apply Hnew.
    apply existsb_exists. exists rel.(r_entity).(e_id). split; [exact Hx|apply Nat.eqb_refl].
  - intros h Hin. apply in_app_or in Hin as [Hin|[<-|[]]]; [now apply Hh|].
    simpl. rewrite length_app. simpl length. lia.
Qed.

Lemma eg_traverse_inv : forall g rt dir depth start fuel eid cd path st,
  1 <= cd -> Z.of_nat (length path) = cd - 1 -> trav_inv start depth st ->
  trav_inv start depth (eg_traverse g rt dir depth fuel eid cd path st).
Proof.
  intros g rt dir depth start fuel.
  induction fuel as [|f IH]; intros eid cd path st Hcd Hp Hst; simpl;
    (destruct (depth <? cd) eqn:ED; [exact Hst|]); apply Z.ltb_ge in ED;
    generalize (sm_get_related_entities g eid rt dir) as rels; intros rels;
    revert st Hst; induction rels as [|rel rels IHr]; intros [visited results] Hst;
    simpl; try exact Hst; apply IHr;
    (destruct (existsb (Nat.eqb (e_id (r_entity rel))) visited) eqn:Ev; [exact Hst|]);
    assert (Hs := trav_inv_step _ _ _ _ rel cd path Hst Ev (conj Hcd ED) Hp);
    (destruct (cd <? depth) eqn:Ecd; [|exact Hs]).
  - exact Hs.
  - apply IH; [lia | rewrite length_app; simpl length; lia | exact Hs].
Qed.

(** [EntityGraph.get_related_entities] lists every entity at most once and
    never the start entity itself; each result has a depth between 1 and
    the requested depth and a path of that many relation types. In
    particular a depth below 1 gives no result. *)
Theorem get_related_entities_distinct_bounded : forall g sid name rt dir depth,
  let res := eg_get_related_entities g sid name rt dir depth in
  NoDup (map hit_id res)
  /\ (forall h, In h res -> 1 <= h.(h_depth) <= depth
                            /\ Z.of_nat (length h.(h_path)) = h.(h_depth))
  /\ (forall e, get_entity_by_name g.(g_base) sid name = Some e -> ~ In e.(e_id) (map hit_id res)).
Proof.
  intros g sid name rt dir depth res. unfold res, eg_get_related_entities.
  destruct (get_entity_by_name (g_base g) sid name) as [e|] eqn:Ee.
  - assert (Hi : trav_inv (e_id e) depth ([e_id e], [])).
    { split; [reflexivity|]. split; [repeat constructor; intros []|intros h []]. }
    destruct (eg_traverse_inv g rt dir depth (e_id e) (Z.to_nat depth) (e_id e) 1 []
                ([e_id e], []) ltac:(lia) eq_refl Hi) as [Hv [Hnd Hh]].
    destruct (eg_traverse g rt dir depth (Z.to_nat depth) (e_id e) 1 [] ([e_id e], []))
      as [visited results]. simpl in Hv, Hnd, Hh |- *.
    rewrite Hv in Hnd. apply NoDup_cons_iff in Hnd as [Hnin Hnd].
    split; [exact Hnd|]. split; [exact Hh|].
    intros e' He'. injection He' as <-. exact Hnin.
  - split; [constructor|]. split; [intros h []|]. discriminate.
Qed.

(** ** Interrupt events *)

Lemma get_pending_interrupts_spec : forall g s ev,
  In ev (get_pending_interrupts g s)
  <-> In ev g.(i_events) /\ ev.(ie_session_id) = s /\ ev.(ie_resolved_at) = None.
Proof.
  intros g s ev. unfold get_pending_interrupts. split; intros H.
  - apply (Permutation_in _ (sort_by_perm _ _)) in H.
    apply filter_In in H as [H1 H2]. apply andb_prop in H2 as [H2 H3].
    split; [exact H1|]. split; [now apply String.eqb_eq|].
    destruct (ie_resolved_at ev); [discriminate | reflexivity].
  - destruct H as [H1 [H2 H3]].
    apply (Permutation_in _ (Permutation_sym (sort_by_perm _ _))).
    apply filter_In. split; [exact H1|]. rewrite H2, H3, String.eqb_refl. reflexivity.
Qed.

(** An interrupt created with [create_interrupt] is pending for its session
    (no response, not resolved) until [resolve_interrupt] is called with
    its id: that call returns [True], afterwards no pending interrupt of
    any session has that id, and every other pending interrupt stays
    pending. *)
Theorem interrupt_pending_until_resolved : forall g sid condition message response,
  let '(interrupt_id, g1) := create_interrupt g sid condition message in
  In (mkInterrupt interrupt_id sid condition message None g.(i_base).(now) None)
     (get_pending_interrupts g1 sid)
  /\ let '(ok, g2) := resolve_interrupt g1 interrupt_id response in
     ok = true
     /\ (forall s ev, In ev (get_pending_interrupts g2 s) -> ev.(ie_id) <> interrupt_id)
     /\ (forall s ev, In ev (get_pending_interrupts g1 s) -> ev.(ie_id) <> interrupt_id ->
                      In ev (get_pending_interrupts g2 s)).
Proof.
  intros g sid condition message response. unfold create_interrupt.
  set (iid := S (i_seq_events g)).
  set (new := mkInterrupt iid sid condition message None (now (i_base g)) None).
  set (g1 := mkInterruptDb (add_changes (i_base g) 1) (i_events g ++ [new]) iid).
  split.
  - apply get_pending_interrupts_spec. simpl. split; [apply in_or_app; right; now left|].
    split; reflexivity.
  - unfold resolve_interrupt. split; [|split].
    + apply Nat.ltb_lt. simpl. lia.
    + intros s ev H. apply get_pending_interrupts_spec in H as [H [_ Hr]]. simpl in H.
      apply in_map_iff in H as [ev0 [<- _]].
      destruct (Nat.eqb (ie_id ev0) iid) eqn:E; [discriminate|].
      apply Nat.eqb_neq in E. exact E.
    + intros s ev H Hne. apply get_pending_interrupts_spec in H as [H [Hs Hr]].
      apply get_pending_interrupts_spec. split; [|split; assumption]. simpl.
      apply in_map_iff. exists ev. split; [|exact H].
      apply Nat.eqb_neq in Hne. now rewrite Hne.
Qed.

(** ** Agent heartbeats *)

Lemma get_active_agents_spec : forall g r,
  In r (get_active_agents g) <-> In r g.(a_agents) /\ r.(ag_status) = "active"%string.
Proof.
  intros g r. unfold get_active_agents. split; intros H.
  - apply (Permutation_in _ (sort_by_perm _ _)) in H.
    apply filter_In in H as [H1 H2]. split; [exact H1 | now apply String.eqb_eq].
  - apply (Permutation_in _ (Permutation_sym (sort_by_perm _ _))).
    apply filter_In. split; [apply H | apply String.eqb_eq, H].
Qed.

Lemma filter_negb_self_nil {A} (p : A -> bool) : forall l,
  filter p (filter (fun x => negb (p x)) l) = [].
Proof.
  induction l as [|x t IH]; simpl; [reflexivity|].
  destruct (p x) eqn:E; simpl; [exact IH|]. rewrite E. exact IH.
Qed.

(** After [register_agent(agent_id)] the table holds exactly one row for
    that agent, which [get_active_agents] lists exactly once; the rows of
    the other agents are kept, and agent ids stay distinct. *)
Theorem register_agent_one_active_row : forall g agent_id meta,
  let g' := snd (register_agent g agent_id meta) in
  py_count (fun r => String.eqb r.(ag_agent_id) agent_id) g'.(a_agents) = 1%nat
  /\ py_count (fun r => String.eqb r.(ag_agent_id) agent_id) (get_active_agents g') = 1%nat
  /\ (forall r, In r g.(a_agents) -> r.(ag_agent_id) <> agent_id -> In r g'.(a_agents))
  /\ (NoDup (map ag_agent_id g.(a_agents)) -> NoDup (map ag_agent_id g'.(a_agents))).
Proof.
  intros g agent_id meta g'.
  set (p := fun r => String.eqb r.(ag_agent_id) agent_id).
  set (row := mkAgent agent_id (now (a_base g)) None "active"
                (match meta with Some [] => None | m => m end)).
  assert (Hrows : g'.(a_agents) = filter (fun r => negb (p r)) g.(a_agents) ++ [row])
    by reflexivity.
  assert (Hp : p row = true) by apply String.eqb_refl.
  split; [|split; [|split]].
  - unfold py_count. rewrite Hrows, filter_app, filter_negb_self_nil. simpl. now rewrite Hp.
  - unfold py_count, get_active_agents.
    rewrite (filter_length_perm _ _ _ (sort_by_perm _ _)).
    assert (H0 : forall l, filter p (filter (fun r => String.eqb (ag_status r) "active")
                                            (filter (fun r => negb (p r)) l)) = []).
    { induction l as [|x t IH]; simpl; [reflexivity|].
      destruct (p x) eqn:E; simpl; [exact IH|].
      destruct (String.eqb _ _); simpl; [rewrite E|]; exact IH. }
    rewrite Hrows, !filter_app, H0. simpl. now rewrite Hp.
  - intros r Hr Hne. rewrite Hrows. apply in_or_app. left. apply filter_In.
    split; [exact Hr|]. unfold p. apply String.eqb_neq in Hne. now rewrite Hne.
  - intros Hnd. rewrite Hrows, map_app. apply NoDup_app.
    + clear Hrows. induction (a_agents g) as [|x t IH]; simpl; [constructor|].
      inversion Hnd as [|? ? Hx Ht]. subst.
      destruct (p x); simpl; [now apply IH|].
      constructor; [|now apply IH]. intros Hin. apply Hx.
      apply in_map_iff in Hin as [y [Hy Hin]]. apply filter_In in Hin as [Hin _].
      rewrite <- Hy. now apply in_map.
    + repeat constructor. intros [].
    + intros x Hx [<-|[]]. apply in_map_iff in Hx as [y [Hy Hin]].
      apply filter_In in Hin as [_ Hn]. unfold p in Hn. simpl in Hy. rewrite Hy in Hn.
      rewrite String.eqb_refl in Hn. discriminate.
Qed.

(** [update_agent_heartbeat(agent_id, status=s)] with a status other than
    "active" takes the agent off [get_active_agents] and leaves every other
    active agent listed. *)
Theorem update_agent_heartbeat_inactive_status : forall g agent_id current_action s,
  s <> "active"%string ->
  let g' := snd (update_agent_heartbeat g agent_id current_action (Some s)) in
  (forall r, In r (get_active_agents g') -> r.(ag_agent_id) <> agent_id)
  /\ (forall r, In r (get_active_agents g) -> r.(ag_agent_id) <> agent_id ->
                In r (get_active_agents g')).
Proof.
  intros g agent_id current_action s Hs g'. split.
  - intros r Hr. apply get_active_agents_spec in Hr as [Hr Ha]. simpl in Hr.
    apply in_map_iff in Hr as [r0 [<- _]].
    destruct (String.eqb (ag_agent_id r0) agent_id) eqn:E; simpl in Ha.
    + contradiction.
    + apply String.eqb_neq in E. exact E.
  - intros r Hr Hne. apply get_active_agents_spec in Hr as [Hr Ha].
    apply get_active_agents_spec. split; [|exact Ha]. simpl.
    apply in_map_iff. exists r. split; [|exact Hr].
    apply String.eqb_neq in Hne. now rewrite Hne.
Qed.

Definition two_agents : agent_db :=
  snd (register_agent (snd (register_agent (mkAgentDb empty_db []) "w1" None)) "w2" None).

Lemma update_agent_heartbeat_inactive_status_witness :
  (forall r, In r (get_active_agents
                     (snd (update_agent_heartbeat two_agents "w1" None (Some "idle"%string))))
             -> r.(ag_agent_id) <> "w1"%string)
  /\ (forall r, In r (get_active_agents two_agents) -> r.(ag_agent_id) <> "w1"%string ->
                In r (get_active_agents
                        (snd (update_agent_heartbeat two_agents "w1" None (Some "idle"%string))))).
Proof.
  exact (update_agent_heartbeat_inactive_status two_agents "w1" None "idle"
           ltac:(discriminate)).
Defined.

(** ** Node lookups after writes *)

Lemma find_id_map_other : forall (f : node -> node) x y l,
  (forall nd, (f nd).(n_id) = nd.(n_id)) -> y <> x ->
  find (fun nd => String.eqb nd.(n_id) y)
       (map (fun nd => if String.eqb nd.(n_id) x then f nd else nd) l)
  = find (fun nd => String.eqb nd.(n_id) y) l.
Proof.
  intros f x y l Hf Hne. induction l as [|nd t IH]; simpl; [reflexivity|].
  destruct (String.eqb (n_id nd) x) eqn:Ex; simpl.
  - rewrite Hf. apply String.eqb_eq in Ex. subst x.
    destruct (String.eqb (n_id nd) y) eqn:Ey; [|exact IH].
    apply String.eqb_eq in Ey. congruence.
  - destruct (String.eqb (n_id nd) y); [reflexivity | exact IH].
Qed.

Lemma find_id_map_same : forall (f : node -> node) x l,
  (forall nd, (f nd).(n_id) = nd.(n_id)) ->
  find (fun nd => String.eqb nd.(n_id) x)
       (map (fun nd => if String.eqb nd.(n_id) x then f nd else nd) l)
  = option_map f (find (fun nd => String.eqb nd.(n_id) x) l).
Proof.
  intros f x l Hf. induction l as [|nd t IH]; simpl; [reflexivity|].
  destruct (String.eqb (n_id nd) x) eqn:Ex; simpl.
  - now rewrite Hf, Ex.
  - rewrite Ex. exact IH.
Qed.

Lemma find_app_none_false {A} (f : A -> bool) :
  forall l x, find f l = None -> f x = false -> find f (l ++ [x]) = None.
Proof.
  induction l as [|y t IH]; intros x Hn Hx; simpl in *; [now rewrite Hx|].
  destruct (f y); [discriminate | now apply IH].
Qed.

(** [get_node] reads back what [create_node] wrote: when the insert
    succeeds the new id maps to a "pending" row with the given fields, both
    timestamps set to now and an empty meta stored as NULL; when it fails
    the id was already taken and nothing changed; other ids are unaffected. *)
Theorem get_node_after_create_node : forall d node_id content parent_id score depth meta,
  let '(ok, d') := create_node d node_id content parent_id score depth meta in
  (ok = true ->
     get_node d' node_id
     = Some (mkNode node_id parent_id content score "pending" depth d.(now) d.(now)
                    (match meta with Some [] => None | m => m end)))
  /\ (ok = false -> d' = d /\ get_node d node_id <> None)
  /\ (forall y, y <> node_id -> get_node d' y = get_node d y).
Proof.
  intros d node_id content parent_id score depth meta. unfold create_node.
  destruct (existsb (fun nd => String.eqb nd.(n_id) node_id) d.(nodes)) eqn:E.
  - split; [discriminate|]. split; [|reflexivity].
    intros _. split; [reflexivity|]. unfold get_node.
    apply existsb_true_find in E as [y Hy]. now rewrite Hy.
  - split; [|split].
    + intros _. unfold get_node. simpl.
      rewrite find_app_none; [reflexivity | now apply existsb_false_find |].
      apply String.eqb_refl.
    + discriminate.
    + intros y Hy. unfold get_node. simpl.
      destruct (find (fun nd => String.eqb nd.(n_id) y) d.(nodes)) as [z|] eqn:F.
      * now apply find_app_some.
      * rewrite find_app_none_false; [reflexivity | exact F |].
        simpl. apply String.eqb_neq. congruence.
Qed.

(** [get_node] reads back what [update_node] wrote: with at least one field
    given, the row of that id (if any) carries the given fields and
    [updated_at] = now, everything else kept; with no field given nothing
    changes. Rows of other ids are unaffected either way. *)
Theorem get_node_after_update_node : forall d node_id content score status meta,
  let d' := snd (update_node d node_id content score status meta) in
  get_node d' node_id
  = match content, score, status, meta with
    | None, None, None, None => get_node d node_id
    | _, _, _, _ =>
        option_map (apply_node_update content score status meta d.(now)) (get_node d node_id)
    end
  /\ forall y, y <> node_id -> get_node d' y = get_node d y.
Proof.
  intros d node_id content score status meta d'.
  assert (Hid : forall nd, (apply_node_update content score status meta d.(now) nd).(n_id)
                           = nd.(n_id)) by reflexivity.
  unfold d', update_node, get_node.
  destruct content, score, status, meta; simpl;
    (split; [apply find_id_map_same; exact Hid
            | intros y Hy; apply find_id_map_other; [exact Hid | exact Hy]])
    || (split; [reflexivity | intros; reflexivity]).
Qed.
